(** * PathToText: a shallow embedding of [Path2File] and its properties

    The Python class [Path2File] of [PathToText.py] walks a folder, filters
    files by extension and by the lines of [.gitignore], extracts their text
    and writes one markdown document with a rendered directory tree.

    Conventions of the embedding.
    - A Python [str] is a list of Unicode code points ([str := list N]).
    - A path is the list of its components below [input_folder]; the source's
      [file_path] is [input_folder / components] and
      [file_path.relative_to(input_folder)] gives the components back.
      [str(relative_path)] joins them with a slash (POSIX).
    - The file system is a finite tree of files and directories (no symbolic
      links).
    - A raised exception that the source does not catch is the result [None].
    - What [print] writes is a list of messages, oldest first; printing
      itself does not fail (standard output takes any text).
    - [read_gitignore], [fetch_all_files] and [main] take the text of
      [.gitignore] as it was read, when the file exists; [open_gitignore]
      and [run] start from the file on disk, which may be unreadable or
      hold bytes that are no UTF-8.
    - Text files are written and read as on POSIX: a newline is written as
      it is, and reading in text mode translates carriage returns
      (universal newlines).  The output file is held as its text. *)

From Stdlib Require Import List NArith Bool Arith Lia.
From Stdlib Require Import Strings.String Strings.Ascii Strings.Byte.
From Stdlib Require Import Sorting.Sorted Sorting.Permutation.
Import ListNotations.

Set Implicit Arguments.
Set Warnings "-register-all".

(** ** Python strings *)

Definition str := list N.

(** An ASCII literal as a Python string. *)
Definition lit (s : string) : str :=
  map N_of_ascii (list_ascii_of_string s).
Arguments lit s%_string.

Definition nl : N := 10.

Fixpoint str_eqb (a b : str) : bool :=
  match a, b with
  | [], [] => true
  | x :: a', y :: b' => N.eqb x y && str_eqb a' b'
  | _, _ => false
  end.

(** [s.startswith(p)] *)
Fixpoint startswith (s p : str) {struct p} : bool :=
  match p, s with
  | [], _ => true
  | y :: p', x :: s' => N.eqb x y && startswith s' p'
  | _ :: _, [] => false
  end.

(** [s.endswith(ext)] *)
Definition endswith (s ext : str) : bool :=
  (List.length ext <=? List.length s)
  && str_eqb (skipn (List.length s - List.length ext) s) ext.

(** [x in l] for a list of strings *)
Definition str_in (x : str) (l : list str) : bool :=
  existsb (str_eqb x) l.

(** [sep.join(parts)] *)
Fixpoint join (sep : str) (parts : list str) : str :=
  match parts with
  | [] => []
  | [p] => p
  | p :: rest => p ++ sep ++ join sep rest
  end.

(** The specification's reading of "the name ends with the extension". *)
Definition ends_with (s ext : str) : Prop := exists pre, s = pre ++ ext.

(** ** The configuration built by [__init__] *)

Definition DEFAULT_FILE_NAME : str := lit "Merged.md".

Definition STANDARD_EXCLUDED_FILE_TYPES : list str :=
  [lit ".DS_Store"; lit ".gitignore"; lit ".lock"; DEFAULT_FILE_NAME].

Definition STANDARD_EXCLUDED_PATHS : list str :=
  [lit ".git"; lit ".venv"; lit "__pycache__"; lit ".ruff_cache"].

Record Path2File := mkPath2File {
  input_folder : str;
  output_path : str;
  included_file_types : list str;
  excluded_file_types : list str;
  excluded_folders : list str;
  map_only : bool;
  ignored_patterns : list str
}.

(** [Path2File.__init__] *)
Definition init (input_folder output_file_path : str)
    (included_file_types excluded_file_types excluded_folders : list str)
    (map_only : bool) : Path2File :=
  {| input_folder := input_folder;
     output_path := output_file_path;
     included_file_types := included_file_types;
     excluded_file_types := STANDARD_EXCLUDED_FILE_TYPES ++ excluded_file_types;
     excluded_folders := STANDARD_EXCLUDED_PATHS ++ excluded_folders;
     map_only := map_only;
     ignored_patterns := [] |}.

(** Python truthiness of a list: [not l] *)
Definition py_not (A : Type) (l : list A) : bool :=
  match l with [] => true | _ => false end.

(** [Path2File._file_matches_criteria] *)
Definition file_matches_criteria (self : Path2File) (file_name : str) : bool :=
  (py_not (excluded_file_types self)
   || negb (existsb (fun ext => endswith file_name ext) (excluded_file_types self)))
  &&
  (py_not (included_file_types self)
   || existsb (fun ext => endswith file_name ext) (included_file_types self)).

(** ** Helpers of the Python library used by the source *)

(** The error monad of uncaught exceptions. *)
Definition bind (A B : Type) (m : option A) (k : A -> option B) : option B :=
  match m with
  | Some a => k a
  | None => None
  end.

Notation "x <- m ;; k" := (bind m (fun x => k))
  (at level 61, m at next level, right associativity).

(** [str.isspace] on one code point: the characters [str.strip()] removes. *)
Definition py_isspace (c : N) : bool :=
  ((9 <=? c) && (c <=? 13) || (28 <=? c) && (c <=? 32)
   || (c =? 133) || (c =? 160) || (c =? 5760)
   || (8192 <=? c) && (c <=? 8202)
   || (c =? 8232) || (c =? 8233) || (c =? 8239) || (c =? 8287)
   || (c =? 12288))%N.

Fixpoint lstrip (s : str) : str :=
  match s with
  | [] => []
  | c :: s' => if py_isspace c then lstrip s' else s
  end.

(** [s.strip()] *)
Definition strip (s : str) : str := rev (lstrip (rev (lstrip s))).

(** Iterating over a text file: the lines, each with its final newline;
    [cur] is the line being read, last character first. *)
Fixpoint readlines (cur : str) (text : str) : list str :=
  match text with
  | [] => match cur with [] => [] | _ => [rev cur] end
  | c :: rest =>
      if (c =? nl)%N then rev (c :: cur) :: readlines [] rest
      else readlines (c :: cur) rest
  end.

Definition cr : N := 13.

(** Reading a file opened in text mode with the default [newline=None]:
    each carriage return with the newline after it, and each carriage
    return alone, comes out as one newline. *)
Fixpoint universal_newlines (text : str) : str :=
  match text with
  | [] => []
  | c :: rest =>
      if (c =? cr)%N then
        match rest with
        | c' :: rest' =>
            if (c' =? nl)%N then nl :: universal_newlines rest'
            else nl :: universal_newlines rest
        | [] => [nl]
        end
      else c :: universal_newlines rest
  end.

Definition star : N := 42.
Definition dot : N := 46.
Definition hash : N := 35.
Definition slash : N := 47.

(** [pattern.replace("*", ".*")] *)
Definition replace_star (pattern : str) : str :=
  flat_map (fun c => if (c =? star)%N then [dot; star] else [c]) pattern.

(** [name.rfind('.')]: the index of the last dot, counted from [i]. *)
Fixpoint rfind_dot (i : nat) (name : str) : option nat :=
  match name with
  | [] => None
  | c :: rest =>
      match rfind_dot (S i) rest with
      | Some j => Some j
      | None => if (c =? dot)%N then Some i else None
      end
  end.

(** [PurePath.suffix] (Python 3.12):
    [i = name.rfind('.')], and [name[i:]] if [0 < i < len(name) - 1]. *)
Definition suffix (name : str) : str :=
  match rfind_dot 0 name with
  | Some i =>
      if (0 <? i) && (i <? List.length name - 1) then skipn i name else []
  | None => []
  end.

(** *** [bytes.decode("utf-8", errors=...)]

    The decoder of CPython: well-formed sequences of Unicode's table 3-7
    are decoded; at an ill-formed one, [errors="strict"] raises
    [UnicodeDecodeError] and [errors="replace"] gives U+FFFD for the maximal
    well-formed prefix of the sequence and resumes at the offending byte. *)

Inductive errors_mode := Strict | Replace.

Definition REPLACEMENT_CHARACTER : N := 65533.

Definition in_range (lo hi x : N) : bool := ((lo <=? x) && (x <=? hi))%N.

Definition is_continuation (x : N) : bool := in_range 128 191 x.

(** The values allowed for the second byte after the lead byte [x0]. *)
Definition second_ok (x0 x1 : N) : bool :=
  if (x0 =? 224)%N then in_range 160 191 x1
  else if (x0 =? 237)%N then in_range 128 159 x1
  else if (x0 =? 240)%N then in_range 144 191 x1
  else if (x0 =? 244)%N then in_range 128 143 x1
  else is_continuation x1.

Definition decoded (c : N) (rest : option str) : option str :=
  match rest with
  | Some s => Some (c :: s)
  | None => None
  end.

Definition undecodable (errors : errors_mode) (rest : option str) : option str :=
  match errors with
  | Strict => None
  | Replace => decoded REPLACEMENT_CHARACTER rest
  end.

Definition low6 (x : N) : N := N.land x 63.

Fixpoint utf8_decode (errors : errors_mode) (bs : list byte) {struct bs}
  : option str :=
  match bs with
  | [] => Some []
  | b0 :: r0 =>
    let x0 := Byte.to_N b0 in
    if (x0 <? 128)%N then decoded x0 (utf8_decode errors r0)
    else if in_range 194 223 x0 then
      match r0 with
      | [] => undecodable errors (Some [])
      | b1 :: r1 =>
        let x1 := Byte.to_N b1 in
        if is_continuation x1
        then decoded (N.lor (N.shiftl (N.land x0 31) 6) (low6 x1))
                     (utf8_decode errors r1)
        else undecodable errors (utf8_decode errors r0)
      end
    else if in_range 224 239 x0 then
      match r0 with
      | [] => undecodable errors (Some [])
      | b1 :: r1 =>
        let x1 := Byte.to_N b1 in
        if second_ok x0 x1 then
          match r1 with
          | [] => undecodable errors (Some [])
          | b2 :: r2 =>
            let x2 := Byte.to_N b2 in
            if is_continuation x2
            then decoded (N.lor (N.shiftl (N.land x0 15) 12)
                            (N.lor (N.shiftl (low6 x1) 6) (low6 x2)))
                         (utf8_decode errors r2)
            else undecodable errors (utf8_decode errors r1)
          end
        else undecodable errors (utf8_decode errors r0)
      end
    else if in_range 240 244 x0 then
      match r0 with
      | [] => undecodable errors (Some [])
      | b1 :: r1 =>
        let x1 := Byte.to_N b1 in
        if second_ok x0 x1 then
          match r1 with
          | [] => undecodable errors (Some [])
          | b2 :: r2 =>
            let x2 := Byte.to_N b2 in
            if is_continuation x2 then
              match r2 with
              | [] => undecodable errors (Some [])
              | b3 :: r3 =>
                let x3 := Byte.to_N b3 in
                if is_continuation x3
                then decoded (N.lor (N.shiftl (N.land x0 7) 18)
                                (N.lor (N.shiftl (low6 x1) 12)
                                   (N.lor (N.shiftl (low6 x2) 6) (low6 x3))))
                             (utf8_decode errors r3)
                else undecodable errors (utf8_decode errors r2)
              end
            else undecodable errors (utf8_decode errors r1)
          end
        else undecodable errors (utf8_decode errors r0)
      end
    else undecodable errors (utf8_decode errors r0)
  end.

(** *** [re.fullmatch] on the patterns made of ordinary characters, [.] and
    a starred atom

    This small matcher stands for Python's [re.fullmatch] in the concrete
    runs below.  [None] is the answer for a pattern that [re] rejects
    (a star with nothing to repeat, a star after a star) or that uses a
    construct outside this fragment. *)

Inductive atom := Lit (c : N) | AnyChar.
Inductive item := One (a : atom) | Many (a : atom).

(** The characters with a special meaning other than [.] and [*]. *)
Definition re_special (c : N) : bool :=
  existsb (N.eqb c) (lit "\^$+?{}[]()|").

Fixpoint re_parse (pattern : str) : option (list item) :=
  match pattern with
  | [] => Some []
  | c :: rest =>
      if re_special c || (c =? star)%N then None
      else
        let a := if (c =? dot)%N then AnyChar else Lit c in
        match rest with
        | c' :: rest' =>
            if (c' =? star)%N then
              match rest' with
              | c'' :: _ =>
                  if (c'' =? star)%N then None
                  else items <- re_parse rest' ;; Some (Many a :: items)
              | [] => Some [Many a]
              end
            else items <- re_parse rest ;; Some (One a :: items)
        | [] => Some [One a]
        end
  end.

(** [.] matches any character but a newline. *)
Definition atom_matches (a : atom) (c : N) : bool :=
  match a with
  | Lit x => (c =? x)%N
  | AnyChar => negb (c =? nl)%N
  end.

Fixpoint items_match (items : list item) (s : str) {struct items} : bool :=
  match items with
  | [] => py_not s
  | One a :: rest =>
      match s with
      | c :: s' => atom_matches a c && items_match rest s'
      | [] => false
      end
  | Many a :: rest =>
      (fix many (s : str) : bool :=
         items_match rest s
         || match s with
            | c :: s' => atom_matches a c && many s'
            | [] => false
            end) s
  end.

Definition simple_fullmatch (pattern s : str) : option bool :=
  items <- re_parse pattern ;; Some (items_match items s).

(** ** The file system and what the program prints *)

(** What opening and reading a file gives: its bytes, or an [OSError]. *)
Inductive read_result :=
  | ReadOk (content : list byte)
  | ReadError (e : str).

(** A directory that cannot be listed has [listable = false]. *)
Inductive node :=
  | File (name : str) (data : read_result)
  | Dir (name : str) (listable : bool) (entries : list node).

Definition node_name (n : node) : str :=
  match n with
  | File name _ => name
  | Dir name _ _ => name
  end.

Definition is_dir (n : node) : bool :=
  match n with
  | File _ _ => false
  | Dir _ _ _ => true
  end.

(** [stat().st_size] *)
Definition st_size (data : read_result) : nat :=
  match data with
  | ReadOk content => List.length content
  | ReadError _ => 0
  end.

(** The lines the program prints. *)
Inductive message :=
  | MsgSkipping (file_path : list str)
  | MsgError (file_path : list str) (e : str)
  | MsgProcessed (file_path : list str) (size : nat)
  | MsgNoFiles
  | MsgFetching
  | MsgCleaning
  | MsgDone.

(** What [MarkItDown.convert] gives: the text, or an exception. *)
Inductive convert_result :=
  | ConvertOk (text_content : str)
  | ConvertError (e : str).

(** The glyphs of the tree. *)
Definition corner : str := [9492; 9472; 9472; 32]%N.
Definition tee : str := [9500; 9472; 9472; 32]%N.
Definition bar : str := [9474; 32; 32; 32]%N.
Definition blank : str := [32; 32; 32; 32]%N.

(** The order of Python on strings: lexicographic on code points. *)
Fixpoint str_ltb (a b : str) : bool :=
  match a, b with
  | _, [] => false
  | [], _ :: _ => true
  | x :: a', y :: b' => (x <? y)%N || (x =? y)%N && str_ltb a' b'
  end.

(** The sort key of the tree, [(not x.is_dir(), x.name)], and the order of
    Python on such pairs. *)
Definition sort_key (n : node) : bool * str := (negb (is_dir n), node_name n).

Definition key_ltb (k1 k2 : bool * str) : bool :=
  match fst k1, fst k2 with
  | false, true => true
  | true, false => false
  | _, _ => str_ltb (snd k1) (snd k2)
  end.

(** [list.sort(key=...)] is stable; so is this insertion sort. *)
Section Sort.
Variable A : Type.
Variable key : A -> bool * str.

Fixpoint insert_by (x : A) (l : list A) : list A :=
  match l with
  | [] => [x]
  | y :: l' =>
      if key_ltb (key y) (key x) then y :: insert_by x l' else x :: l
  end.

Fixpoint sort_by (l : list A) : list A :=
  match l with
  | [] => []
  | x :: l' => insert_by x (sort_by l')
  end.
End Sort.

(** ** The program *)

Section Program.

(** [re.fullmatch(pattern, string)] as a truth value; [None] when the
    pattern does not compile ([re.error]). *)
Variable re_fullmatch : str -> str -> option bool.

(** [MarkItDown().convert(str(file_path))] *)
Variable md_convert : list str -> convert_result.

(** [Path2File._read_gitignore]; [gitignore] is the text in the file
    [input_folder / ".gitignore"], [None] when it does not exist. *)
Definition read_gitignore (self : Path2File) (gitignore : option str)
  : Path2File :=
  match gitignore with
  | None => self
  | Some text =>
      {| input_folder := input_folder self;
         output_path := output_path self;
         included_file_types := included_file_types self;
         excluded_file_types := excluded_file_types self;
         excluded_folders := excluded_folders self;
         map_only := map_only self;
         ignored_patterns :=
           map strip
             (filter (fun line =>
                        negb (py_not (strip line))
                        && negb (startswith (strip line) [hash]))
                     (readlines [] (universal_newlines text))) |}
  end.

(** [any(re.fullmatch(pattern.replace("*", ".*"), s) for pattern in ...)] *)
Fixpoint any_fullmatch (patterns : list str) (s : str) : option bool :=
  match patterns with
  | [] => Some false
  | pattern :: rest =>
      m <- re_fullmatch (replace_star pattern) s ;;
      if m then Some true else any_fullmatch rest s
  end.

(** [Path2File._is_ignored] *)
Definition is_ignored (self : Path2File) (path : list str) : option bool :=
  let relative_path := path in
  any_fullmatch (ignored_patterns self) (join [slash] relative_path).

(** The tuple [supported_extensions] of [_process_file]. *)
Definition supported_extensions : list str :=
  [lit ".pdf"; lit ".pptx"; lit ".docx"; lit ".xlsx"].

(** The string [_process_file] returns for the text [file_content]. *)
Definition file_section (relative_path : list str) (file_extension : str)
    (file_content : str) : str :=
  lit "## " ++ join [slash] relative_path ++ [nl]
  ++ lit "```" ++ skipn 1 file_extension ++ [nl]
  ++ file_content ++ [nl] ++ lit "```" ++ [nl; nl].

(** [Path2File._process_file]: the section of the file, or [None], and what
    is printed. *)
Definition process_file (self : Path2File) (file_path : list str)
    (data : read_result) : option str * list message :=
  let relative_path := file_path in
  let file_extension := suffix (last file_path []) in
  let outcome :=
    if existsb (fun ext => endswith file_extension ext) supported_extensions
    then
      match md_convert file_path with
      | ConvertOk text_content => inl text_content
      | ConvertError e => inr e
      end
    else
      match data with
      | ReadOk content =>
          match utf8_decode Replace content with
          | Some text => inl text
          | None => inr (lit "UnicodeDecodeError")
          end
      | ReadError e => inr e
      end in
  match outcome with
  | inr e => (None, [MsgError file_path e])
  | inl file_content =>
      (Some (file_section relative_path file_extension file_content),
       [MsgProcessed file_path (st_size data)])
  end.

(** What [fetch_all_files] carries along: [files_data] and the printed
    lines. *)
Definition fetch_state : Type := list str * list message.

(** The body of [for file in files] for one file. *)
Definition visit_file (self : Path2File) (root_path : list str)
    (file : str) (data : read_result) (st : fetch_state)
  : option fetch_state :=
  let file_path := root_path ++ [file] in
  ignored <- is_ignored self file_path ;;
  if ignored then Some (fst st, snd st ++ [MsgSkipping file_path])
  else if file_matches_criteria self file then
    let (file_data, printed) := process_file self file_path data in
    match file_data with
    | Some section =>
        if py_not section then Some (fst st, snd st ++ printed)
        else Some (fst st ++ [section], snd st ++ printed)
    | None => Some (fst st, snd st ++ printed)
    end
  else Some st.

(** [for file in files]: the entries that are not directories, in the order
    of the listing. *)
Fixpoint visit_files (self : Path2File) (root_path : list str)
    (entries : list node) (st : fetch_state) : option fetch_state :=
  match entries with
  | [] => Some st
  | File file data :: rest =>
      st' <- visit_file self root_path file data st ;;
      visit_files self root_path rest st'
  | Dir _ _ _ :: rest => visit_files self root_path rest st
  end.

(** Whether [directories[:] = [...]] keeps [dir]. *)
Definition keeps_directory (self : Path2File) (root_path : list str)
    (dir : str) : option bool :=
  ignored <- is_ignored self (root_path ++ [dir]) ;;
  Some (negb ignored && negb (str_in dir (excluded_folders self))).

(** The list comprehension assigned to [directories[:]]. *)
Fixpoint filter_directories (self : Path2File) (root_path : list str)
    (directories : list str) : option (list str) :=
  match directories with
  | [] => Some []
  | dir :: rest =>
      keep <- keeps_directory self root_path dir ;;
      kept <- filter_directories self root_path rest ;;
      Some (if keep then dir :: kept else kept)
  end.

Definition dirnames (entries : list node) : list str :=
  map node_name (filter is_dir entries).

(** The loop over [Path.walk()]: the directory [n] found at [root_path] is
    listed, its body is run, and the directories left in [directories]
    are walked in turn.  A directory that cannot be listed is passed over
    ([on_error=None]). *)
Fixpoint walk (self : Path2File) (n : node) (root_path : list str)
    (st : fetch_state) {struct n} : option fetch_state :=
  match n with
  | File _ _ => Some st
  | Dir _ false _ => Some st
  | Dir _ true entries =>
      directories <- filter_directories self root_path (dirnames entries) ;;
      st1 <- visit_files self root_path entries st ;;
      (fix descend (es : list node) (st : fetch_state)
         : option fetch_state :=
         match es with
         | [] => Some st
         | e :: es' =>
             st' <- (if is_dir e && str_in (node_name e) directories
                     then walk self e (root_path ++ [node_name e]) st
                     else Some st) ;;
             descend es' st'
         end) entries st1
  end.

(** [Path2File.fetch_all_files]: the configuration after the call (its
    patterns are read), [files_data] and the printed lines.  [tree] is
    the input folder. *)
Definition fetch_all_files (self : Path2File) (gitignore : option str)
    (tree : node) : option (Path2File * fetch_state) :=
  if map_only self then Some (self, ([], []))
  else
    let self' := read_gitignore self gitignore in
    st <- walk self' tree [] ([], []) ;;
    Some (self', st).

(** *** The directory tree *)

(** The filter of [recursive_list]:
    [entry.name not in self.excluded_folders + self.excluded_file_types] *)
Definition shown (self : Path2File) (name : str) : bool :=
  negb (str_in name (excluded_folders self ++ excluded_file_types self)).

(** The [for i, entry in enumerate(entries)] loop of [recursive_list] over
    the sorted entries, each paired with the lines of its own listing as
    a function of the prefix; [is_last] is [i == len(entries) - 1]. *)
Fixpoint tree_lines (prefix : str) (entries : list (node * (str -> list str)))
  : list str :=
  match entries with
  | [] => []
  | (entry, listing) :: rest =>
      let is_last := py_not rest in
      let part := if is_last then corner else tee in
      (prefix ++ part ++ node_name entry)
      :: (if is_dir entry
          then listing (prefix ++ (if is_last then blank else bar))
          else [])
      ++ tree_lines prefix rest
  end.

(** [recursive_list] of [_map_directory_structure]: the lines it yields.
    The source calls it on the input folder, taken to be a directory, and
    on the entries for which [is_dir()] holds; a directory whose listing
    raises [PermissionError] yields nothing.  The recursive call on an
    entry is taken before the entries are filtered and sorted, which keeps
    the recursion structural; [recursive_list_unfold] below gives the
    equation in the order of the source. *)
Fixpoint recursive_list (self : Path2File) (dir_path : node) (prefix : str)
    {struct dir_path} : list str :=
  match dir_path with
  | File _ _ => []
  | Dir _ false _ => []
  | Dir _ true entries =>
      let entries :=
        map (fun entry => (entry, recursive_list self entry)) entries in
      let entries :=
        filter (fun entry => shown self (node_name (fst entry))) entries in
      let entries := sort_by (fun entry => sort_key (fst entry)) entries in
      tree_lines prefix entries
  end.

(** [Path2File._map_directory_structure] *)
Definition map_directory_structure (self : Path2File) (tree : node) : str :=
  join [nl] (recursive_list self tree []).

(** *** Writing and cleaning the output file *)

(** The output file ([None]: it does not exist) and the printed lines. *)
Record world := mkWorld {
  output_file : option str;
  stdout : list message
}.

(** The code points that have a UTF-8 encoding: the Unicode scalar values,
    which are all code points but the surrogates U+D800 to U+DFFF.  (The
    name of a file whose bytes are no UTF-8 comes to Python with lone
    surrogates.) *)
Definition is_scalar (c : N) : bool :=
  ((c <? 55296) || (57343 <? c) && (c <=? 1114111))%N.

Definition utf8_encodable (text : str) : bool := forallb is_scalar text.

(** [f.write(text)] on a file opened with [encoding="utf-8"]: the text is
    added to what the file holds, or [UnicodeEncodeError] is raised. *)
Definition f_write (f : str) (text : str) : option str :=
  if utf8_encodable text then Some (f ++ text) else None.

(** [for file_data in files_data: f.write(file_data)] *)
Fixpoint f_write_all (f : str) (files_data : list str) : option str :=
  match files_data with
  | [] => Some f
  | file_data :: rest => f' <- f_write f file_data ;; f_write_all f' rest
  end.

(** [Path2File.write_to_file]; [tree] is the input folder as it is listed
    while the output file is open.  The exception of a write is not
    caught. *)
Definition write_to_file (self : Path2File) (tree : node)
    (files_data : list str) (w : world) : option (world * bool) :=
  if py_not files_data && negb (map_only self) then
    Some ({| output_file := output_file w;
             stdout := stdout w ++ [MsgNoFiles] |}, false)
  else
    f <- f_write [] (lit "# Folder Structure" ++ [nl]) ;;
    f <- f_write f (lit "```" ++ [nl] ++ map_directory_structure self tree
                    ++ [nl] ++ lit "```") ;;
    f <- (if py_not files_data then Some f
          else
            f <- f_write f ([nl; nl] ++ lit "# File Contents" ++ [nl]) ;;
            f_write_all f files_data) ;;
    Some ({| output_file := Some f; stdout := stdout w |}, true).

(** [re.sub("\n{3,}", "\n\n", text)]: at a position where three newlines
    follow, the match takes the whole run (the quantifier is greedy) and
    two newlines are written; [in_match] says that the scan is inside
    such a match. *)
Fixpoint sub_newlines (in_match : bool) (text : str) : str :=
  match text with
  | [] => []
  | c :: rest =>
      if in_match then
        if (c =? nl)%N then sub_newlines true rest
        else c :: sub_newlines false rest
      else if (c =? nl)%N && startswith rest [nl; nl]
      then nl :: nl :: sub_newlines true rest
      else c :: sub_newlines false rest
  end.

(** [Path2File.clean_up_text]; opening a file that does not exist
    raises, and [f.read()] gives the text of the file with universal
    newlines. *)
Definition clean_up_text (w : world) : option world :=
  written <- output_file w ;;
  let text := universal_newlines written in
  let cleaned_text := sub_newlines false text in
  Some {| output_file := Some cleaned_text; stdout := stdout w |}.

(** [main]: the world after the run and whether a path is returned
    ([false]: [None] is returned).  [tree] is the input folder when the
    files are fetched, [tree_w] when the tree is drawn. *)
Definition main (self : Path2File) (gitignore : option str)
    (tree tree_w : node) (w : world) : option (world * bool) :=
  let w := {| output_file := output_file w;
              stdout := stdout w ++ [MsgFetching] |} in
  fetched <- fetch_all_files self gitignore tree ;;
  let (self, st) := fetched in
  let (files_data, printed) := st in
  let w := {| output_file := output_file w;
              stdout := stdout w ++ printed |} in
  written <- write_to_file self tree_w files_data w ;;
  let (w, write_successful) := written in
  if negb write_successful then Some (w, false)
  else
    let w := {| output_file := output_file w;
                stdout := stdout w ++ [MsgCleaning] |} in
    w <- clean_up_text w ;;
    Some ({| output_file := output_file w;
             stdout := stdout w ++ [MsgDone] |}, true).



End Program.

(** ** Notions used to state the properties *)

(** The text that [write_to_file] writes: the heading, the fenced tree and,
    when there are sections, the second heading and the sections. *)
Definition output_text (self : Path2File) (tree : node)
    (files_data : list str) : str :=
  lit "# Folder Structure" ++ [nl] ++ lit "```" ++ [nl]
  ++ map_directory_structure self tree ++ [nl] ++ lit "```"
  ++ match files_data with
     | [] => []
     | _ => [nl; nl] ++ lit "# File Contents" ++ [nl]
            ++ List.concat files_data
     end.

(** [needle in text] *)
Definition infix_of (needle text : str) : Prop :=
  exists pre post, text = pre ++ needle ++ post.

(** The number of newlines a text starts with. *)
Fixpoint leading_newlines (text : str) : nat :=
  match text with
  | [] => 0
  | c :: rest => if (c =? nl)%N then S (leading_newlines rest) else 0
  end.

(** Whether three newlines in a row occur in a text. *)
Fixpoint has_three_newlines (text : str) : bool :=
  match text with
  | [] => false
  | c :: rest =>
      (c =? nl)%N && startswith rest [nl; nl] || has_three_newlines rest
  end.

(** A text cut into its runs of newlines and its other characters. *)
Inductive block :=
  | Char (c : N)
  | Newlines (n : nat).

Definition block_text (b : block) : str :=
  match b with
  | Char c => [c]
  | Newlines n => repeat nl n
  end.

Definition blocks_text (bs : list block) : str := flat_map block_text bs.

(** The runs are not empty and no two of them are neighbours, and no
    character is a newline. *)
Fixpoint well_cut (bs : list block) : bool :=
  match bs with
  | [] => true
  | Char c :: rest => negb (c =? nl)%N && well_cut rest
  | Newlines n :: rest =>
      (0 <? n)
      && match rest with Newlines _ :: _ => false | _ => true end
      && well_cut rest
  end.

Fixpoint cut (text : str) : list block :=
  match text with
  | [] => []
  | c :: rest =>
      if (c =? nl)%N then
        match cut rest with
        | Newlines n :: bs => Newlines (S n) :: bs
        | bs => Newlines 1 :: bs
        end
      else Char c :: cut rest
  end.

(** The cleanup in the words of the specification: every run of three or
    more newlines becomes two newlines, the rest is kept. *)
Definition collapse (b : block) : block :=
  match b with
  | Char c => Char c
  | Newlines n => Newlines (if 3 <=? n then 2 else n)
  end.

Definition collapse_runs (text : str) : str :=
  blocks_text (map collapse (cut text)).

(** The order in which the tree lists two entries, [a] before [b]:
    no file before a directory, and names in Python's string order among
    the directories and among the files. *)
Definition tree_order (a b : node) : Prop :=
  (is_dir b = true -> is_dir a = true)
  /\ (is_dir a = is_dir b -> str_ltb (node_name b) (node_name a) = false).

(** Alphabetical order on names, said without the comparison function:
    [a] precedes [b] when [a] is [b] cut short, or when at the first place
    where the two differ [a] has the smaller code point. *)
Definition precedes (a b : str) : Prop :=
  (exists post, post <> [] /\ b = a ++ post)
  \/ (exists pre x y a' b',
        a = pre ++ x :: a' /\ b = pre ++ y :: b' /\ (x < y)%N).

(** [a] may stand before [b] in a listing: a directory before a file; two
    directories, or two files, in alphabetical order of their names. *)
Definition listed_before (a b : node) : Prop :=
  (is_dir a = true /\ is_dir b = false)
  \/ (is_dir a = is_dir b
      /\ (node_name a = node_name b
          \/ precedes (node_name a) (node_name b))).

(** The paths of the files under a directory. *)
Inductive file_under : node -> list str -> Prop :=
  | file_here name listable entries file data :
      In (File file data) entries ->
      file_under (Dir name listable entries) [file]
  | file_below name listable entries d path :
      In d entries -> is_dir d = true -> file_under d path ->
      file_under (Dir name listable entries) (node_name d :: path).

(** The files that the loop over [Path.walk()] comes to: the files of a
    directory that is listed, and the files it comes to in a subdirectory
    that [directories[:] = [...]] keeps.  [root_path] is the path of the
    directory. *)
Inductive visits (re_fullmatch : str -> str -> option bool)
    (self : Path2File) : node -> list str -> list str -> Prop :=
  | visits_file name entries root_path file data :
      In (File file data) entries ->
      visits re_fullmatch self (Dir name true entries) root_path
        (root_path ++ [file])
  | visits_below name entries root_path d path :
      In d entries -> is_dir d = true ->
      keeps_directory re_fullmatch self root_path (node_name d) = Some true ->
      visits re_fullmatch self d (root_path ++ [node_name d]) path ->
      visits re_fullmatch self (Dir name true entries) root_path path.

(** UTF-8 in the words of its definition: the bytes of a code point, one
    to four of them, with the bits of the code point in groups of six
    after the first byte. *)
Definition utf8_encode_char (c : N) : list N :=
  (if c <? 128 then [c]
   else if c <? 2048 then [192 + c / 64; 128 + c mod 64]
   else if c <? 65536
        then [224 + c / 4096; 128 + (c / 64) mod 64; 128 + c mod 64]
        else [240 + c / 262144; 128 + (c / 4096) mod 64;
              128 + (c / 64) mod 64; 128 + c mod 64])%N.

Definition byte_of_N (n : N) : byte :=
  match Byte.of_N n with
  | Some b => b
  | None => x00
  end.

(** The UTF-8 encoding of a text. *)
Definition utf8_encode (text : str) : list byte :=
  flat_map (fun c => map byte_of_N (utf8_encode_char c)) text.

(** How the two error modes of the decoder are related on the same bytes:
    [mr] with [errors="replace"], [ms] with [errors="strict"]. *)
Definition replaces (mr ms : option str) : Prop :=
  exists text,
    mr = Some text
    /\ (ms = None -> In REPLACEMENT_CHARACTER text)
    /\ (forall t, ms = Some t -> text = t).

(** The entries of a directory that the tree lists, in the order of the
    tree. *)
Definition listed (self : Path2File) (entries : list node) : list node :=
  sort_by sort_key (filter (fun e => shown self (node_name e)) entries).

(** The printed lines only grow. *)
Definition grows (st st' : fetch_state) : Prop :=
  forall m, In m (snd st) -> In m (snd st').

(** No line about a skipped file is printed between [st] and [st']. *)
Definition quiet (st st' : fetch_state) : Prop :=
  forall path, In (MsgSkipping path) (snd st') -> In (MsgSkipping path) (snd st).

(** ** A concrete folder for the runs at the end *)

(** No conversion of documents is available in the concrete runs. *)
Definition no_convert (file_path : list str) : convert_result :=
  ConvertError (lit "unsupported").

Definition example_config : Path2File :=
  init (lit "proj") (lit "proj/Merged.md") [] [] [] false.

(** [proj/] with [notes.txt] (four newlines between two letters, then a
    byte that is no UTF-8), [z.pyc], and [__pycache__/m.pyc]. *)
Definition example_tree : node :=
  Dir (lit "proj") true
    [File (lit "notes.txt") (ReadOk [x61; x0a; x0a; x0a; x0a; x62; xff]);
     File (lit "z.pyc") (ReadOk [x00]);
     Dir (lit "__pycache__") true [File (lit "m.pyc") (ReadOk [x00])]].


(** The text of [proj/.gitignore]: a comment, an empty line and one
    pattern. *)
Definition example_gitignore : str :=
  lit "# compiled" ++ [nl; nl] ++ lit "*.pyc" ++ [nl].

(** ** Notions for the properties of the walk *)

(** The loop of [walk] over the directories that are left, with the walk of
    one directory as [walk_one]. *)
Definition descend (walk_one : node -> list str -> fetch_state -> option fetch_state)
    (directories : list str) (root_path : list str)
  : list node -> fetch_state -> option fetch_state :=
  fix descend (es : list node) (st : fetch_state) : option fetch_state :=
    match es with
    | [] => Some st
    | e :: es' =>
        st' <- (if is_dir e && str_in (node_name e) directories
                then walk_one e (root_path ++ [node_name e]) st
                else Some st) ;;
        descend es' st'
    end.

(** The files the walk comes to, as [visits], with what reading each of
    them gives. *)
Inductive visits_with (re_fullmatch : str -> str -> option bool)
    (self : Path2File) : node -> list str -> list str -> read_result -> Prop :=
  | visits_with_file name entries root_path file data :
      In (File file data) entries ->
      visits_with re_fullmatch self (Dir name true entries) root_path
        (root_path ++ [file]) data
  | visits_with_below name entries root_path d path data :
      In d entries -> is_dir d = true ->
      keeps_directory re_fullmatch self root_path (node_name d) = Some true ->
      visits_with re_fullmatch self d (root_path ++ [node_name d]) path data ->
      visits_with re_fullmatch self (Dir name true entries) root_path path data.

(** A section that [_process_file] gives for one of the files in [V], a
    file that is not ignored and passes the extension filter. *)
Definition section_from (re_fullmatch : str -> str -> option bool)
    (md_convert : list str -> convert_result) (self : Path2File)
    (V : list str -> read_result -> Prop) (section : str) : Prop :=
  exists path data,
    V path data
    /\ is_ignored re_fullmatch self path = Some false
    /\ file_matches_criteria self (last path []) = true
    /\ fst (process_file md_convert self path data) = Some section.

(** A printed line that the loop body gives for one of the files in [V]. *)
Definition message_from (re_fullmatch : str -> str -> option bool)
    (md_convert : list str -> convert_result) (self : Path2File)
    (V : list str -> read_result -> Prop) (m : message) : Prop :=
  match m with
  | MsgSkipping path =>
      exists data, V path data
        /\ is_ignored re_fullmatch self path = Some true
  | MsgProcessed path size =>
      exists data, V path data
        /\ is_ignored re_fullmatch self path = Some false
        /\ file_matches_criteria self (last path []) = true
        /\ size = st_size data
        /\ exists section,
             fst (process_file md_convert self path data) = Some section
  | MsgError path e =>
      exists data, V path data
        /\ is_ignored re_fullmatch self path = Some false
        /\ file_matches_criteria self (last path []) = true
        /\ process_file md_convert self path data = (None, [MsgError path e])
  | _ => False
  end.

(** What a stretch of the walk over the files in [V] does to the state:
    sections and printed lines are appended, each of them comes from a file
    in [V], and every file in [V] has left its section or its line. *)
Definition effect (re_fullmatch : str -> str -> option bool)
    (md_convert : list str -> convert_result) (self : Path2File)
    (V : list str -> read_result -> Prop) (st st' : fetch_state) : Prop :=
  exists added printed,
    fst st' = fst st ++ added
    /\ snd st' = snd st ++ printed
    /\ Forall (section_from re_fullmatch md_convert self V) added
    /\ Forall (message_from re_fullmatch md_convert self V) printed
    /\ (forall path data section,
          V path data ->
          is_ignored re_fullmatch self path = Some false ->
          file_matches_criteria self (last path []) = true ->
          fst (process_file md_convert self path data) = Some section ->
          In section added)
    /\ (forall path data,
          V path data ->
          is_ignored re_fullmatch self path = Some true ->
          In (MsgSkipping path) printed).

(** The path a printed line is about. *)
Definition message_path (m : message) : option (list str) :=
  match m with
  | MsgSkipping path => Some path
  | MsgError path _ => Some path
  | MsgProcessed path _ => Some path
  | _ => None
  end.

(** No directory on the way to the path [dirs ++ [file]] is an excluded
    folder or ignored. *)
Definition reached_through_kept (re_fullmatch : str -> str -> option bool)
    (self : Path2File) (path : list str) : Prop :=
  exists dirs file,
    path = dirs ++ [file]
    /\ forall pre d post,
         dirs = pre ++ d :: post ->
         str_in d (excluded_folders self) = false
         /\ is_ignored re_fullmatch self (pre ++ [d]) = Some false.


(** The sections of the files of one directory, in the order of the
    listing: of each file that passes the extension filter, what
    [_process_file] gives, if anything. *)
Definition sections_of_files (md_convert : list str -> convert_result)
    (self : Path2File) (root_path : list str) (entries : list node)
  : list str :=
  flat_map
    (fun e =>
       match e with
       | File file data =>
           if file_matches_criteria self file then
             match fst (process_file md_convert self (root_path ++ [file])
                          data) with
             | Some section => [section]
             | None => []
             end
           else []
       | Dir _ _ _ => []
       end) entries.

(** ** Notions for the properties of the tree *)

(** The entry [e] is drawn [depth] levels below the directory: it is an
    entry with a name that is not filtered out, of the directory or of a
    subdirectory that is drawn itself. *)
Inductive drawn_at (self : Path2File) : node -> nat -> node -> Prop :=
  | drawn_here name entries e :
      In e entries -> shown self (node_name e) = true ->
      drawn_at self (Dir name true entries) 0 e
  | drawn_below name entries d depth e :
      In d entries -> shown self (node_name d) = true -> is_dir d = true ->
      drawn_at self d depth e ->
      drawn_at self (Dir name true entries) (S depth) e.

(** A line of the tree for the entry [e] at the given depth: the prefix,
    one indentation of four characters for each level, a branch glyph and
    the name. *)
Definition line_of (prefix : str) (depth : nat) (e : node) (line : str)
  : Prop :=
  exists indents part,
    line = prefix ++ List.concat indents ++ part ++ node_name e
    /\ List.length indents = depth
    /\ Forall (fun i => i = bar \/ i = blank) indents
    /\ (part = tee \/ part = corner).

(** Two directories that differ in the order of their listings and in what
    their files hold, at every level; the names in a listing are all
    different. *)
Inductive same_entries : node -> node -> Prop :=
  | same_file name data data' :
      same_entries (File name data) (File name data')
  | same_dir name listable entries entries' reordered :
      NoDup (map node_name entries) ->
      Permutation entries reordered ->
      Forall2 same_entries reordered entries' ->
      same_entries (Dir name listable entries) (Dir name listable entries').

(** ** Notions for the properties of the texts *)

(** A text with every newline written as carriage return and newline. *)
Definition crlf (text : str) : str :=
  flat_map (fun c => if (c =? nl)%N then [cr; nl] else [c]) text.

(** The characters that are neither a newline nor a carriage return. *)
Definition visible (c : N) : bool := negb (c =? nl)%N && negb (c =? cr)%N.

(** ** More concrete folders for the runs at the end *)

(** [proj/] with [a.py], [b.txt] and [c.py], and a run for [.py] files. *)
Definition python_config : Path2File :=
  init (lit "proj") (lit "proj/Merged.md") [lit ".py"] [] [] false.

Definition flat_tree : node :=
  Dir (lit "proj") true
    [File (lit "a.py") (ReadOk [x61]);
     File (lit "b.txt") (ReadOk [x62]);
     File (lit "c.py") (ReadOk [x63])].

(** The example folder listed in another order, with other bytes in
    [notes.txt]. *)
Definition example_tree_reordered : node :=
  Dir (lit "proj") true
    [Dir (lit "__pycache__") true [File (lit "m.pyc") (ReadOk [x00])];
     File (lit "z.pyc") (ReadOk [x00]);
     File (lit "notes.txt") (ReadOk [x68; x69])].


(** A [.gitignore] whose only line is no regex. *)
Definition invalid_gitignore : str := lit "[x" ++ [nl].

(** * Properties *)

(** ** Strings *)

Lemma str_eqb_eq (a b : str) : str_eqb a b = true <-> a = b.
Proof.
  revert b; induction a as [|x a IH]; intros [|y b]; simpl; split;
    try congruence; try reflexivity.
  - intros H. apply andb_true_iff in H as [Hx Ha].
    apply N.eqb_eq in Hx. apply IH in Ha. congruence.
  - intros H. injection H as -> ->. rewrite N.eqb_refl. simpl.
    apply IH. reflexivity.
Qed.

Lemma str_eqb_refl (a : str) : str_eqb a a = true.
Proof. apply str_eqb_eq. reflexivity. Qed.

Lemma str_in_In (x : str) (l : list str) : str_in x l = true <-> In x l.
Proof.
  unfold str_in. rewrite existsb_exists. split.
  - intros [y [Hy He]]. apply str_eqb_eq in He. subst. exact Hy.
  - intros H. exists x. split; [exact H | apply str_eqb_refl].
Qed.

Lemma endswith_ends_with (s ext : str) :
  endswith s ext = true <-> ends_with s ext.
Proof.
  unfold endswith, ends_with. rewrite andb_true_iff, Nat.leb_le, str_eqb_eq.
  split.
  - intros [_ H]. remember (List.length s - List.length ext) as n.
    exists (firstn n s). rewrite <- H. symmetry. apply firstn_skipn.
  - intros [pre ->]. rewrite length_app. split; [lia|].
    replace (List.length pre + List.length ext - List.length ext)
      with (List.length pre + 0) by lia.
    rewrite skipn_app, Nat.add_0_r, skipn_all. simpl.
    replace (List.length pre - List.length pre) with 0 by lia.
    reflexivity.
Qed.

Lemma existsb_endswith (name : str) (exts : list str) :
  existsb (fun ext => endswith name ext) exts = true
  <-> exists ext, In ext exts /\ ends_with name ext.
Proof.
  rewrite existsb_exists. split; intros [ext [Hin H]]; exists ext;
    (split; [exact Hin | apply endswith_ends_with; exact H]).
Qed.

Lemma py_not_nil (A : Type) (l : list A) : py_not l = true <-> l = [].
Proof. destruct l; simpl; split; congruence. Qed.

(** ** C1: the extension filter *)

(** C1. A file name passes [_file_matches_criteria] exactly when (the list of
    excluded extensions is empty or the name ends with none of them) and
    (the list of included extensions is empty or the name ends with one of
    them); a name that ends with an excluded extension never passes,
    whatever the include list. *)
Theorem file_matches_criteria_spec (self : Path2File) (file_name : str) :
  (file_matches_criteria self file_name = true
   <-> (excluded_file_types self = []
        \/ ~ (exists ext, In ext (excluded_file_types self)
                          /\ ends_with file_name ext))
       /\ (included_file_types self = []
           \/ exists ext, In ext (included_file_types self)
                          /\ ends_with file_name ext))
  /\ (forall ext included,
        In ext (excluded_file_types self) -> ends_with file_name ext ->
        file_matches_criteria
          {| input_folder := input_folder self;
             output_path := output_path self;
             included_file_types := included;
             excluded_file_types := excluded_file_types self;
             excluded_folders := excluded_folders self;
             map_only := map_only self;
             ignored_patterns := ignored_patterns self |} file_name = false).
Proof.
  split.
  - unfold file_matches_criteria.
    rewrite andb_true_iff, !orb_true_iff, negb_true_iff, !py_not_nil.
    rewrite <- not_true_iff_false, !existsb_endswith. reflexivity.
  - intros ext included Hin Hend. unfold file_matches_criteria. simpl.
    assert (He : existsb (fun e => endswith file_name e)
                   (excluded_file_types self) = true).
    { apply existsb_endswith. exists ext. split; assumption. }
    rewrite He. destruct (excluded_file_types self); [destruct Hin|].
    reflexivity.
Qed.

(** ** C4: the standard exclusions *)

(** C4. Whatever lists the caller supplies (empty ones too), the
    configuration built by [__init__] excludes the file types [.DS_Store],
    [.gitignore], [.lock] and the default output name, and the folders
    [.git], [.venv], [__pycache__] and [.ruff_cache], besides every entry
    the caller supplied; reading [.gitignore] does not change these
    lists. *)
Theorem init_keeps_standard_exclusions
    (folder out : str) (included excluded folders : list str) (m : bool)
    (gitignore : option str) :
  let self := init folder out included excluded folders m in
  let self' := read_gitignore self gitignore in
  (In (lit ".DS_Store") (excluded_file_types self)
   /\ In (lit ".gitignore") (excluded_file_types self)
   /\ In (lit ".lock") (excluded_file_types self)
   /\ In (lit "Merged.md") (excluded_file_types self))
  /\ (In (lit ".git") (excluded_folders self)
      /\ In (lit ".venv") (excluded_folders self)
      /\ In (lit "__pycache__") (excluded_folders self)
      /\ In (lit ".ruff_cache") (excluded_folders self))
  /\ (forall ext, In ext excluded -> In ext (excluded_file_types self))
  /\ (forall dir, In dir folders -> In dir (excluded_folders self))
  /\ excluded_file_types self' = excluded_file_types self
  /\ excluded_folders self' = excluded_folders self.
Proof.
  intros self self'. subst self self'. unfold init.
  assert (Hg : forall c : Path2File,
             excluded_file_types (read_gitignore c gitignore)
             = excluded_file_types c
             /\ excluded_folders (read_gitignore c gitignore)
                = excluded_folders c).
  { intros c. destruct gitignore; split; reflexivity. }
  cbn [excluded_file_types excluded_folders].
  repeat split;
    try (apply in_or_app; left; simpl; auto 10; fail);
    try (intros; apply in_or_app; right; assumption);
    apply Hg.
Qed.

(** ** C3 and C9: the cleanup of the output file *)

Lemma startswith_two (text : str) :
  startswith text [nl; nl] = (2 <=? leading_newlines text).
Proof.
  destruct text as [|a [|b r]]; simpl; try reflexivity.
  - destruct (a =? nl)%N; reflexivity.
  - destruct (a =? nl)%N; simpl; [|reflexivity].
    destruct (b =? nl)%N; reflexivity.
Qed.

Lemma has_three_newlines_cons (c : N) (rest : str) :
  has_three_newlines (c :: rest)
  = (c =? nl)%N && (2 <=? leading_newlines rest) || has_three_newlines rest.
Proof. cbn [has_three_newlines]. rewrite startswith_two. reflexivity. Qed.

Lemma sub_newlines_invariant (text : str) :
  (leading_newlines (sub_newlines true text) = 0
   /\ has_three_newlines (sub_newlines true text) = false)
  /\ (leading_newlines (sub_newlines false text)
      = Nat.min (leading_newlines text) 2
      /\ has_three_newlines (sub_newlines false text) = false).
Proof.
  induction text as [|c rest [[IHt1 IHt2] [IHf1 IHf2]]].
  - simpl. auto.
  - split.
    + simpl. destruct (c =? nl)%N eqn:Hc; [auto|].
      rewrite has_three_newlines_cons. simpl. rewrite Hc. simpl. auto.
    + cbn [sub_newlines leading_newlines]. rewrite startswith_two.
      destruct (c =? nl)%N eqn:Hc; cbn [andb].
      * destruct (2 <=? leading_newlines rest) eqn:Hl.
        -- apply Nat.leb_le in Hl. split.
           ++ simpl. rewrite IHt1. lia.
           ++ rewrite !has_three_newlines_cons, IHt2.
              cbn [leading_newlines]. rewrite IHt1. reflexivity.
        -- apply Nat.leb_gt in Hl. split.
           ++ cbn [leading_newlines]. rewrite Hc, IHf1. lia.
           ++ rewrite has_three_newlines_cons, Hc, IHf1, IHf2.
              replace (Nat.min (leading_newlines rest) 2)
                with (leading_newlines rest) by lia.
              apply Nat.leb_gt in Hl. rewrite Hl. reflexivity.
      * split.
        -- cbn [leading_newlines]. rewrite Hc. reflexivity.
        -- rewrite has_three_newlines_cons, Hc, IHf2. reflexivity.
Qed.

Lemma sub_newlines_no_three (text : str) :
  has_three_newlines (sub_newlines false text) = false.
Proof. apply sub_newlines_invariant. Qed.

Lemma sub_newlines_clean (text : str) :
  has_three_newlines text = false -> sub_newlines false text = text.
Proof.
  induction text as [|c rest IH]; [reflexivity|].
  simpl. intros H. apply orb_false_iff in H as [H1 H2].
  rewrite H1, IH by exact H2. reflexivity.
Qed.

Lemma startswith_prefix (text p : str) :
  startswith text p = true <-> exists post, text = p ++ post.
Proof.
  revert text; induction p as [|y p IH]; intros text; simpl.
  - split; [exists text; reflexivity | reflexivity].
  - destruct text as [|x text].
    + split; [discriminate | intros [post H]; discriminate].
    + rewrite andb_true_iff, N.eqb_eq, IH. split.
      * intros [-> [post ->]]. exists post. reflexivity.
      * intros [post H]. injection H as -> ->. split; [reflexivity|].
        exists post. reflexivity.
Qed.

Lemma has_three_newlines_infix (text : str) :
  has_three_newlines text = true <-> infix_of [nl; nl; nl] text.
Proof.
  unfold infix_of. induction text as [|c rest IH]; cbn [has_three_newlines].
  - split; [discriminate|]. intros [[|a pre] [post H]]; discriminate.
  - rewrite orb_true_iff, andb_true_iff, N.eqb_eq, IH, startswith_prefix.
    split.
    + intros [[-> [post ->]] | [pre [post ->]]].
      * exists [], post. reflexivity.
      * exists (c :: pre), post. reflexivity.
    + intros [[|a pre] [post H]].
      * left. simpl in H. injection H as -> ->. split; [reflexivity|].
        exists post. reflexivity.
      * right. simpl in H. injection H as -> ->. exists pre, post.
        reflexivity.
Qed.

Lemma infix_of_trans (a b c : str) :
  infix_of a b -> infix_of b c -> infix_of a c.
Proof.
  intros [p1 [q1 ->]] [p2 [q2 ->]]. exists (p2 ++ p1), (q1 ++ q2).
  rewrite <- !app_assoc. reflexivity.
Qed.

Lemma sub_newlines_leave_match (n : nat) (rest : str) :
  leading_newlines rest = 0 ->
  sub_newlines true (repeat nl n ++ rest) = sub_newlines false rest.
Proof.
  intros Hr. induction n as [|n IH]; [|exact IH].
  destruct rest as [|c r]; [reflexivity|].
  simpl in *. destruct (c =? nl)%N; [discriminate | reflexivity].
Qed.

Lemma sub_newlines_run (n : nat) (rest : str) :
  leading_newlines rest = 0 ->
  sub_newlines false (repeat nl n ++ rest)
  = repeat nl (if 3 <=? n then 2 else n) ++ sub_newlines false rest.
Proof.
  intros Hr.
  assert (H0 : startswith rest [nl; nl] = false).
  { rewrite startswith_two, Hr. reflexivity. }
  assert (H1 : startswith (nl :: rest) [nl; nl] = false).
  { rewrite startswith_two. simpl. rewrite Hr. reflexivity. }
  destruct n as [|[|[|n]]].
  - reflexivity.
  - cbn [repeat app sub_newlines]. rewrite H0. reflexivity.
  - cbn [repeat app sub_newlines]. rewrite H1, H0. reflexivity.
  - change (repeat nl (S (S (S n))) ++ rest)
      with (nl :: nl :: nl :: repeat nl n ++ rest).
    cbn [sub_newlines]. cbn [startswith N.eqb nl Pos.eqb andb].
    change (nl :: nl :: repeat nl n ++ rest)
      with (repeat nl (S (S n)) ++ rest).
    rewrite sub_newlines_leave_match by exact Hr. reflexivity.
Qed.

Lemma well_cut_leading (bs : list block) (n : nat) :
  well_cut (Newlines n :: bs) = true -> leading_newlines (blocks_text bs) = 0.
Proof.
  simpl. destruct bs as [|[c|m] bs]; simpl; try reflexivity.
  - intros H. destruct (c =? nl)%N; [|reflexivity].
    rewrite andb_false_r in H. discriminate.
  - rewrite andb_false_r. discriminate.
Qed.

Lemma sub_newlines_blocks (bs : list block) :
  well_cut bs = true ->
  sub_newlines false (blocks_text bs) = blocks_text (map collapse bs).
Proof.
  induction bs as [|[c|n] bs IH]; intros H; [reflexivity| |].
  - simpl in H. apply andb_true_iff in H as [Hc Hw].
    apply negb_true_iff in Hc. simpl. rewrite Hc. simpl.
    rewrite IH by exact Hw. reflexivity.
  - pose proof (well_cut_leading _ _ H) as Hl.
    simpl in H. apply andb_true_iff in H as [_ Hw].
    change (blocks_text (Newlines n :: bs))
      with (repeat nl n ++ blocks_text bs).
    rewrite sub_newlines_run by exact Hl. rewrite IH by exact Hw.
    reflexivity.
Qed.

Lemma cut_text (text : str) : blocks_text (cut text) = text.
Proof.
  induction text as [|c rest IH]; [reflexivity|].
  simpl. destruct (c =? nl)%N eqn:Hc.
  - apply N.eqb_eq in Hc. subst c.
    destruct (cut rest) as [|[c'|n] bs]; simpl in *; rewrite <- IH;
      reflexivity.
  - simpl. rewrite IH. reflexivity.
Qed.

Lemma cut_well_cut (text : str) : well_cut (cut text) = true.
Proof.
  induction text as [|c rest IH]; [reflexivity|].
  simpl. destruct (c =? nl)%N eqn:Hc.
  - destruct (cut rest) as [|[c'|n] bs]; simpl in *; try reflexivity.
    + exact IH.
    + apply andb_true_iff in IH as [IH1 IH2].
      apply andb_true_iff in IH1 as [_ IH1]. rewrite IH1, IH2. reflexivity.
  - simpl. rewrite Hc, IH. reflexivity.
Qed.

Lemma sub_newlines_collapse (text : str) :
  sub_newlines false text = collapse_runs text.
Proof.
  unfold collapse_runs.
  rewrite <- sub_newlines_blocks by apply cut_well_cut.
  rewrite cut_text. reflexivity.
Qed.

Lemma universal_newlines_no_cr (text : str) :
  ~ In cr text -> universal_newlines text = text.
Proof.
  induction text as [|c rest IH]; intros H; [reflexivity|].
  cbn [universal_newlines]. destruct (N.eqb_spec c cr) as [->|Hc].
  - exfalso. apply H. left. reflexivity.
  - rewrite IH; [reflexivity|]. intros Hin. apply H. right. exact Hin.
Qed.

Lemma universal_newlines_removes_cr_bounded (n : nat) :
  forall text, List.length text <= n -> ~ In cr (universal_newlines text).
Proof.
  induction n as [|n IH]; intros [|c rest] Hlen; simpl in Hlen;
    try (intros []); try lia.
  cbn [universal_newlines]. destruct (N.eqb_spec c cr) as [->|Hc].
  - destruct rest as [|c' rest']; [intros [H | []]; discriminate|].
    destruct (c' =? nl)%N; intros [H | H]; try discriminate;
      revert H; apply IH; simpl in Hlen |- *; lia.
  - intros [H | H]; [congruence|]. revert H. apply IH. lia.
Qed.

Lemma universal_newlines_removes_cr (text : str) :
  ~ In cr (universal_newlines text).
Proof.
  apply universal_newlines_removes_cr_bounded with (n := List.length text).
  lia.
Qed.

Lemma sub_newlines_no_cr (text : str) :
  ~ In cr text -> forall in_match, ~ In cr (sub_newlines in_match text).
Proof.
  induction text as [|c rest IH]; intros H in_match; [intros []|].
  assert (Hc : c <> cr) by (intros ->; apply H; left; reflexivity).
  assert (Hr : ~ In cr rest) by (intros Hin; apply H; right; exact Hin).
  cbn [sub_newlines].
  destruct in_match; [destruct (c =? nl)%N|
                      destruct ((c =? nl)%N && startswith rest [nl; nl])].
  - apply IH, Hr.
  - intros [Heq | Hin]; [congruence | revert Hin; apply IH, Hr].
  - intros [Heq | [Heq | Hin]]; try discriminate. revert Hin. apply IH, Hr.
  - intros [Heq | Hin]; [congruence | revert Hin; apply IH, Hr].
Qed.

(** C3, as the code has it. [re.sub] rewrites its text with every run of
    three or more newlines replaced by exactly two newlines and everything
    else kept: cut into its maximal runs of newlines and its other
    characters, the text comes back with each run of [n >= 3] newlines
    shortened to two.  [clean_up_text] applies it to the text read from
    the output file, in which the carriage returns have become newlines;
    on a file without carriage returns it changes the runs only.  Cleaning
    a file that was cleaned changes nothing; four newlines in a row
    become two. *)
Theorem clean_up_text_collapses_runs (text : str) :
  blocks_text (cut text) = text
  /\ well_cut (cut text) = true
  /\ sub_newlines false text = collapse_runs text
  /\ (has_three_newlines text = false -> collapse_runs text = text)
  /\ (forall w : world,
        output_file w = Some text ->
        clean_up_text w
        = Some {| output_file := Some (collapse_runs (universal_newlines text));
                  stdout := stdout w |})
  /\ (~ In cr text -> universal_newlines text = text)
  /\ (forall w w1 : world,
        output_file w = Some text ->
        clean_up_text w = Some w1 -> clean_up_text w1 = Some w1)
  /\ collapse_runs ([97; nl; nl; nl; nl; 98]%N) = [97; nl; nl; 98]%N.
Proof.
  assert (Hclean : forall w : world,
             output_file w = Some text ->
             clean_up_text w
             = Some {| output_file :=
                         Some (collapse_runs (universal_newlines text));
                       stdout := stdout w |}).
  { intros w Hw. unfold clean_up_text. rewrite Hw. cbn [bind].
    rewrite sub_newlines_collapse. reflexivity. }
  split; [apply cut_text|].
  split; [apply cut_well_cut|].
  split; [apply sub_newlines_collapse|].
  split; [rewrite <- sub_newlines_collapse; apply sub_newlines_clean|].
  split; [exact Hclean|].
  split; [apply universal_newlines_no_cr|].
  split; [|reflexivity].
  intros w w1 Hw H1. rewrite (Hclean w Hw) in H1. injection H1 as <-.
  unfold clean_up_text. cbn [output_file stdout bind].
  rewrite <- !sub_newlines_collapse.
  rewrite (universal_newlines_no_cr
             (sub_newlines false (universal_newlines text))).
  - rewrite sub_newlines_clean by apply sub_newlines_no_three. reflexivity.
  - apply sub_newlines_no_cr, universal_newlines_removes_cr.
Qed.

(** ** C7: decoding with replacement *)

Lemma replaces_decoded (c : N) (mr ms : option str) :
  replaces mr ms -> replaces (decoded c mr) (decoded c ms).
Proof.
  intros [text [-> [Hn Hs]]]. exists (c :: text). simpl. repeat split.
  - destruct ms; [discriminate|]. intros _. right. apply Hn. reflexivity.
  - intros t. destruct ms as [t'|]; [|discriminate].
    intros H. injection H as <-. f_equal. apply Hs. reflexivity.
Qed.

Lemma replaces_undecodable (mr ms ms' : option str) :
  replaces mr ms' -> replaces (undecodable Replace mr) (undecodable Strict ms).
Proof.
  intros [text [-> _]]. exists (REPLACEMENT_CHARACTER :: text). simpl.
  repeat split; [intros _; left; reflexivity | discriminate].
Qed.

Lemma replaces_nil : replaces (Some []) (Some []).
Proof.
  exists []. repeat split; [discriminate | congruence].
Qed.

Ltac decoder_cases :=
  repeat match goal with
    | |- context [if ?c then _ else _] => destruct c
    | |- context [match ?l with [] => _ | _ :: _ => _ end] =>
        is_var l; destruct l
    end.

Lemma utf8_decode_replaces_bounded (n : nat) :
  forall bs, List.length bs <= n ->
  replaces (utf8_decode Replace bs) (utf8_decode Strict bs).
Proof.
  induction n as [|n IH]; intros bs Hlen.
  - destruct bs; [apply replaces_nil | simpl in Hlen; lia].
  - destruct bs as [|b0 r0]; [apply replaces_nil|].
    cbn [utf8_decode]. cbv zeta. decoder_cases;
      first [ apply replaces_decoded; apply IH; simpl in Hlen |- *; lia
            | apply replaces_undecodable with (ms' := Some []);
              apply replaces_nil
            | eapply replaces_undecodable; apply IH;
              simpl in Hlen |- *; lia ].
Qed.

Lemma utf8_decode_replaces (bs : list byte) :
  replaces (utf8_decode Replace bs) (utf8_decode Strict bs).
Proof. apply utf8_decode_replaces_bounded with (n := List.length bs). lia. Qed.

(** *** The decoder and the definition of UTF-8 *)

Lemma to_N_byte_of_N (n : N) : (n < 256)%N -> Byte.to_N (byte_of_N n) = n.
Proof.
  intros H. unfold byte_of_N. destruct (Byte.of_N n) as [b|] eqn:Hb.
  - apply Byte.to_of_N. exact Hb.
  - apply Byte.of_N_None_iff in Hb. lia.
Qed.

Lemma byte_of_N_to_N (b : byte) : byte_of_N (Byte.to_N b) = b.
Proof. unfold byte_of_N. rewrite Byte.of_to_N. reflexivity. Qed.

Lemma lor_shiftl_low (h l k : N) :
  (l < 2 ^ k)%N -> N.lor (N.shiftl h k) l = (h * 2 ^ k + l)%N.
Proof.
  intros Hl. rewrite N.shiftl_mul_pow2.
  assert (Hz : N.land (h * 2 ^ k) l = 0%N).
  { apply N.bits_inj_0. intros n. rewrite N.land_spec.
    destruct (N.lt_ge_cases n k) as [Hn | Hn].
    - rewrite N.mul_pow2_bits_low by exact Hn. reflexivity.
    - destruct (N.eq_dec l 0) as [-> | Hl0].
      + rewrite N.bits_0. apply andb_false_r.
      + rewrite (N.bits_above_log2 l n); [apply andb_false_r|].
        apply N.lt_le_trans with (m := k); [|exact Hn].
        apply N.log2_lt_pow2; [lia | exact Hl]. }
  rewrite <- N.lxor_lor by exact Hz. symmetry.
  apply N.add_nocarry_lxor. exact Hz.
Qed.

Lemma lead2_bits (b : byte) :
  in_range 194 223 (Byte.to_N b) = true ->
  N.land (Byte.to_N b) 31 = (Byte.to_N b - 192)%N.
Proof. destruct b; intros H; first [reflexivity | discriminate H]. Qed.

Lemma lead3_bits (b : byte) :
  in_range 224 239 (Byte.to_N b) = true ->
  N.land (Byte.to_N b) 15 = (Byte.to_N b - 224)%N.
Proof. destruct b; intros H; first [reflexivity | discriminate H]. Qed.

Lemma lead4_bits (b : byte) :
  in_range 240 244 (Byte.to_N b) = true ->
  N.land (Byte.to_N b) 7 = (Byte.to_N b - 240)%N.
Proof. destruct b; intros H; first [reflexivity | discriminate H]. Qed.

Lemma continuation_bits (b : byte) :
  is_continuation (Byte.to_N b) = true ->
  low6 (Byte.to_N b) = (Byte.to_N b - 128)%N
  /\ (128 <= Byte.to_N b <= 191)%N.
Proof.
  destruct b; intros H; first [split; [reflexivity | vm_compute; split; discriminate] | discriminate H].
Qed.

Lemma in_range_spec (lo hi x : N) :
  in_range lo hi x = true <-> (lo <= x <= hi)%N.
Proof.
  unfold in_range. rewrite andb_true_iff, !N.leb_le. reflexivity.
Qed.

Lemma second_ok_spec (x0 x1 : N) :
  second_ok x0 x1 = true
  <-> ((128 <= x1 <= 191)%N
       /\ (x0 = 224%N -> (160 <= x1)%N) /\ (x0 = 237%N -> (x1 <= 159)%N)
       /\ (x0 = 240%N -> (144 <= x1)%N) /\ (x0 = 244%N -> (x1 <= 143)%N)).
Proof.
  unfold second_ok, is_continuation.
  destruct (N.eqb_spec x0 224); [rewrite in_range_spec; lia|].
  destruct (N.eqb_spec x0 237); [rewrite in_range_spec; lia|].
  destruct (N.eqb_spec x0 240); [rewrite in_range_spec; lia|].
  destruct (N.eqb_spec x0 244); rewrite in_range_spec; lia.
Qed.

Lemma quotient_and_rest (q r k : N) :
  (r < k)%N -> ((q * k + r) / k = q /\ (q * k + r) mod k = r)%N.
Proof.
  intros Hr. split; symmetry.
  - apply N.div_unique with (r := r); [exact Hr | lia].
  - apply N.mod_unique with (q := q); [exact Hr | lia].
Qed.

Lemma utf8_encode_char_1 (c : N) :
  (c < 128)%N -> utf8_encode_char c = [c].
Proof.
  intros H. unfold utf8_encode_char.
  destruct (N.ltb_spec c 128); [reflexivity | lia].
Qed.

Lemma utf8_encode_char_2 (h a : N) :
  (2 <= h < 32)%N -> (a < 64)%N ->
  utf8_encode_char (h * 64 + a) = [192 + h; 128 + a]%N.
Proof.
  intros Hh Ha. unfold utf8_encode_char.
  destruct (N.ltb_spec (h * 64 + a) 128); [lia|].
  destruct (N.ltb_spec (h * 64 + a) 2048); [|lia].
  destruct (@quotient_and_rest h a 64 Ha) as [-> ->]. reflexivity.
Qed.

Lemma utf8_encode_char_3 (h a b : N) :
  (h < 16)%N -> (a < 64)%N -> (b < 64)%N -> (h = 0%N -> (32 <= a)%N) ->
  utf8_encode_char (h * 4096 + (a * 64 + b))
  = [224 + h; 128 + a; 128 + b]%N.
Proof.
  intros Hh Ha Hb H0. unfold utf8_encode_char.
  destruct (N.ltb_spec (h * 4096 + (a * 64 + b)) 128); [lia|].
  destruct (N.ltb_spec (h * 4096 + (a * 64 + b)) 2048); [lia|].
  destruct (N.ltb_spec (h * 4096 + (a * 64 + b)) 65536); [|lia].
  assert (E1 : ((h * 4096 + (a * 64 + b)) / 4096 = h)%N).
  { apply (@quotient_and_rest h (a * 64 + b) 4096); lia. }
  assert (E2 : ((h * 4096 + (a * 64 + b)) / 64 = h * 64 + a)%N).
  { replace (h * 4096 + (a * 64 + b))%N with ((h * 64 + a) * 64 + b)%N by lia.
    apply (@quotient_and_rest (h * 64 + a) b 64); exact Hb. }
  assert (E3 : ((h * 4096 + (a * 64 + b)) mod 64 = b)%N).
  { replace (h * 4096 + (a * 64 + b))%N with ((h * 64 + a) * 64 + b)%N by lia.
    apply (@quotient_and_rest (h * 64 + a) b 64); exact Hb. }
  rewrite E1, E2, E3.
  destruct (@quotient_and_rest h a 64 Ha) as [_ ->]. reflexivity.
Qed.

Lemma utf8_encode_char_4 (h a b d : N) :
  (h < 8)%N -> (a < 64)%N -> (b < 64)%N -> (d < 64)%N ->
  (h = 0%N -> (16 <= a)%N) ->
  utf8_encode_char (h * 262144 + (a * 4096 + (b * 64 + d)))
  = [240 + h; 128 + a; 128 + b; 128 + d]%N.
Proof.
  intros Hh Ha Hb Hd H0. unfold utf8_encode_char.
  set (c := (h * 262144 + (a * 4096 + (b * 64 + d)))%N).
  destruct (N.ltb_spec c 128); [subst c; lia|].
  destruct (N.ltb_spec c 2048); [subst c; lia|].
  destruct (N.ltb_spec c 65536); [subst c; lia|].
  assert (E1 : (c / 262144 = h)%N).
  { apply (@quotient_and_rest h (a * 4096 + (b * 64 + d)) 262144); lia. }
  assert (E2 : (c / 4096 = h * 64 + a)%N).
  { replace c with ((h * 64 + a) * 4096 + (b * 64 + d))%N by (subst c; lia).
    apply (@quotient_and_rest (h * 64 + a) (b * 64 + d) 4096); lia. }
  assert (E3 : (c / 64 = (h * 64 + a) * 64 + b)%N).
  { replace c with (((h * 64 + a) * 64 + b) * 64 + d)%N by (subst c; lia).
    apply (@quotient_and_rest ((h * 64 + a) * 64 + b) d 64); exact Hd. }
  assert (E4 : (c mod 64 = d)%N).
  { replace c with (((h * 64 + a) * 64 + b) * 64 + d)%N by (subst c; lia).
    apply (@quotient_and_rest ((h * 64 + a) * 64 + b) d 64); exact Hd. }
  rewrite E1, E2, E3, E4.
  destruct (@quotient_and_rest h a 64 Ha) as [_ ->].
  destruct (@quotient_and_rest (h * 64 + a) b 64 Hb) as [_ ->]. reflexivity.
Qed.

(** Every scalar value is of one of the four shapes. *)
Lemma scalar_shapes (c : N) :
  is_scalar c = true ->
  (c < 128)%N
  \/ (exists h a, c = (h * 64 + a)%N /\ (2 <= h < 32)%N /\ (a < 64)%N)
  \/ (exists h a b,
        c = (h * 4096 + (a * 64 + b))%N
        /\ (h < 16)%N /\ (a < 64)%N /\ (b < 64)%N
        /\ (h = 0%N -> (32 <= a)%N) /\ (h = 13%N -> (a < 32)%N))
  \/ (exists h a b d,
        c = (h * 262144 + (a * 4096 + (b * 64 + d)))%N
        /\ (h <= 4)%N /\ (a < 64)%N /\ (b < 64)%N /\ (d < 64)%N
        /\ (h = 0%N -> (16 <= a)%N) /\ (h = 4%N -> (a < 16)%N)).
Proof.
  unfold is_scalar. intros Hs.
  assert (Hc : (c < 55296 \/ 57343 < c <= 1114111)%N).
  { apply orb_true_iff in Hs as [Hs | Hs]; [left; apply N.ltb_lt; exact Hs|].
    apply andb_true_iff in Hs as [H1 H2]. apply N.ltb_lt in H1.
    apply N.leb_le in H2. lia. }
  clear Hs.
  pose proof (N.div_mod c 64 ltac:(discriminate)) as E1.
  pose proof (N.mod_lt c 64 ltac:(discriminate)) as B1.
  set (m1 := (c / 64)%N) in *. set (r1 := (c mod 64)%N) in *.
  pose proof (N.div_mod m1 64 ltac:(discriminate)) as E2.
  pose proof (N.mod_lt m1 64 ltac:(discriminate)) as B2.
  set (m2 := (m1 / 64)%N) in *. set (r2 := (m1 mod 64)%N) in *.
  pose proof (N.div_mod m2 64 ltac:(discriminate)) as E3.
  pose proof (N.mod_lt m2 64 ltac:(discriminate)) as B3.
  set (m3 := (m2 / 64)%N) in *. set (r3 := (m2 mod 64)%N) in *.
  destruct (N.lt_ge_cases c 128) as [H128 | H128]; [left; exact H128|].
  right. destruct (N.lt_ge_cases c 2048) as [H2048 | H2048].
  { left. exists m1, r1. lia. }
  right. destruct (N.lt_ge_cases c 65536) as [H65536 | H65536].
  { left. exists m2, r2, r1. lia. }
  right. exists m3, r3, r2, r1. lia.
Qed.

Lemma join2 (h a : N) :
  (a < 64)%N -> N.lor (N.shiftl h 6) a = (h * 64 + a)%N.
Proof. intros Ha. apply (@lor_shiftl_low h a 6). exact Ha. Qed.

Lemma join3 (h a b : N) :
  (a < 64)%N -> (b < 64)%N ->
  N.lor (N.shiftl h 12) (N.lor (N.shiftl a 6) b)
  = (h * 4096 + (a * 64 + b))%N.
Proof.
  intros Ha Hb. rewrite (join2 a Hb).
  apply (@lor_shiftl_low h (a * 64 + b) 12). change (2 ^ 12)%N with 4096%N. lia.
Qed.

Lemma join4 (h a b d : N) :
  (a < 64)%N -> (b < 64)%N -> (d < 64)%N ->
  N.lor (N.shiftl h 18) (N.lor (N.shiftl a 12) (N.lor (N.shiftl b 6) d))
  = (h * 262144 + (a * 4096 + (b * 64 + d)))%N.
Proof.
  intros Ha Hb Hd. rewrite (join3 a Hb Hd).
  apply (@lor_shiftl_low h (a * 4096 + (b * 64 + d)) 18).
  change (2 ^ 18)%N with 262144%N. lia.
Qed.

Lemma second_ok_continuation (x0 : N) (b1 : byte) :
  second_ok x0 (Byte.to_N b1) = true -> is_continuation (Byte.to_N b1) = true.
Proof.
  intros H. apply second_ok_spec in H. apply in_range_spec. lia.
Qed.

(** The four accepting steps of the decoder, with the code point as a sum. *)

Lemma utf8_decode_one (m : errors_mode) (b0 : byte) (rest : list byte) :
  (Byte.to_N b0 < 128)%N ->
  utf8_decode m (b0 :: rest) = decoded (Byte.to_N b0) (utf8_decode m rest).
Proof.
  intros H. cbn [utf8_decode]. cbv zeta.
  destruct (N.ltb_spec (Byte.to_N b0) 128); [reflexivity | lia].
Qed.

Lemma utf8_decode_two (m : errors_mode) (b0 b1 : byte) (rest : list byte) :
  in_range 194 223 (Byte.to_N b0) = true ->
  is_continuation (Byte.to_N b1) = true ->
  utf8_decode m (b0 :: b1 :: rest)
  = decoded ((Byte.to_N b0 - 192) * 64 + (Byte.to_N b1 - 128))
            (utf8_decode m rest).
Proof.
  intros H0 H1. cbn [utf8_decode]. cbv zeta.
  pose proof (proj1 (in_range_spec _ _ _) H0) as R0.
  destruct (N.ltb_spec (Byte.to_N b0) 128); [lia|].
  rewrite H0, H1, (lead2_bits _ H0).
  destruct (continuation_bits _ H1) as [-> R1].
  rewrite join2 by lia. reflexivity.
Qed.

Lemma utf8_decode_three (m : errors_mode) (b0 b1 b2 : byte)
    (rest : list byte) :
  in_range 224 239 (Byte.to_N b0) = true ->
  second_ok (Byte.to_N b0) (Byte.to_N b1) = true ->
  is_continuation (Byte.to_N b2) = true ->
  utf8_decode m (b0 :: b1 :: b2 :: rest)
  = decoded ((Byte.to_N b0 - 224) * 4096
             + ((Byte.to_N b1 - 128) * 64 + (Byte.to_N b2 - 128)))
            (utf8_decode m rest).
Proof.
  intros H0 H1 H2. cbn [utf8_decode]. cbv zeta.
  pose proof (proj1 (in_range_spec _ _ _) H0) as R0.
  destruct (N.ltb_spec (Byte.to_N b0) 128); [lia|].
  replace (in_range 194 223 (Byte.to_N b0)) with false
    by (symmetry; apply not_true_is_false; rewrite in_range_spec; lia).
  rewrite H0, H1, H2, (lead3_bits _ H0).
  destruct (continuation_bits _ (second_ok_continuation _ _ H1)) as [-> R1].
  destruct (continuation_bits _ H2) as [-> R2].
  rewrite join3 by lia. reflexivity.
Qed.

Lemma utf8_decode_four (m : errors_mode) (b0 b1 b2 b3 : byte)
    (rest : list byte) :
  in_range 240 244 (Byte.to_N b0) = true ->
  second_ok (Byte.to_N b0) (Byte.to_N b1) = true ->
  is_continuation (Byte.to_N b2) = true ->
  is_continuation (Byte.to_N b3) = true ->
  utf8_decode m (b0 :: b1 :: b2 :: b3 :: rest)
  = decoded ((Byte.to_N b0 - 240) * 262144
             + ((Byte.to_N b1 - 128) * 4096
                + ((Byte.to_N b2 - 128) * 64 + (Byte.to_N b3 - 128))))
            (utf8_decode m rest).
Proof.
  intros H0 H1 H2 H3. cbn [utf8_decode]. cbv zeta.
  pose proof (proj1 (in_range_spec _ _ _) H0) as R0.
  destruct (N.ltb_spec (Byte.to_N b0) 128); [lia|].
  replace (in_range 194 223 (Byte.to_N b0)) with false
    by (symmetry; apply not_true_is_false; rewrite in_range_spec; lia).
  replace (in_range 224 239 (Byte.to_N b0)) with false
    by (symmetry; apply not_true_is_false; rewrite in_range_spec; lia).
  rewrite H0, H1, H2, H3, (lead4_bits _ H0).
  destruct (continuation_bits _ (second_ok_continuation _ _ H1)) as [-> R1].
  destruct (continuation_bits _ H2) as [-> R2].
  destruct (continuation_bits _ H3) as [-> R3].
  rewrite join4 by lia. reflexivity.
Qed.

(** Decoding the encoding of one scalar value gives it back. *)
Lemma utf8_decode_encoded_char (m : errors_mode) (c : N) (rest : list byte) :
  is_scalar c = true ->
  utf8_decode m (map byte_of_N (utf8_encode_char c) ++ rest)
  = decoded c (utf8_decode m rest).
Proof.
  intros Hc.
  destruct (scalar_shapes c Hc)
    as [H1 | [(h & a & -> & Hh & Ha)
       | [(h & a & b & -> & Hh & Ha & Hb & H0 & H13)
         | (h & a & b & d & -> & Hh & Ha & Hb & Hd & H0 & H4)]]].
  - rewrite utf8_encode_char_1 by exact H1. cbn [map app].
    rewrite utf8_decode_one; rewrite to_N_byte_of_N by lia;
      [reflexivity | exact H1].
  - rewrite utf8_encode_char_2 by assumption. cbn [map app].
    rewrite utf8_decode_two; rewrite ?to_N_byte_of_N by lia;
      [ f_equal; lia | apply in_range_spec; lia | apply in_range_spec; lia ].
  - rewrite utf8_encode_char_3 by assumption. cbn [map app].
    rewrite utf8_decode_three; rewrite ?to_N_byte_of_N by lia;
      [ f_equal; lia | apply in_range_spec; lia
      | apply second_ok_spec; lia | apply in_range_spec; lia ].
  - rewrite utf8_encode_char_4 by (assumption || lia). cbn [map app].
    rewrite utf8_decode_four; rewrite ?to_N_byte_of_N by lia;
      [ f_equal; lia | apply in_range_spec; lia
      | apply second_ok_spec; lia | apply in_range_spec; lia
      | apply in_range_spec; lia ].
Qed.

(** Round trip: the encoding of a text of scalar values decodes to the
    text, in either mode, whatever bytes follow. *)
Lemma utf8_decode_encode_app (m : errors_mode) (text : str)
    (rest : list byte) :
  utf8_encodable text = true ->
  utf8_decode m (utf8_encode text ++ rest)
  = match utf8_decode m rest with
    | Some t => Some (text ++ t)
    | None => None
    end.
Proof.
  induction text as [|c text IH]; intros H.
  - cbn [utf8_encode flat_map app]. destruct (utf8_decode m rest); reflexivity.
  - cbn [utf8_encodable forallb] in H. apply andb_true_iff in H as [Hc Ht].
    cbn [utf8_encode flat_map]. rewrite <- app_assoc.
    rewrite utf8_decode_encoded_char by exact Hc.
    fold (utf8_encode text). rewrite IH by exact Ht.
    destruct (utf8_decode m rest); reflexivity.
Qed.

Lemma utf8_decode_encode (m : errors_mode) (text : str) :
  utf8_encodable text = true ->
  utf8_decode m (utf8_encode text) = Some text.
Proof.
  intros H. rewrite <- (app_nil_r (utf8_encode text)).
  rewrite utf8_decode_encode_app by exact H. cbn [utf8_decode].
  rewrite app_nil_r. reflexivity.
Qed.

Lemma decoded_some (c : N) (rest : option str) (t : str) :
  decoded c rest = Some t -> exists t', rest = Some t' /\ t = c :: t'.
Proof.
  destruct rest as [t'|]; [|discriminate]. intros [= <-].
  exists t'. split; reflexivity.
Qed.

Lemma is_scalar_spec (c : N) :
  is_scalar c = true <-> (c < 55296 \/ 57343 < c <= 1114111)%N.
Proof.
  unfold is_scalar.
  rewrite orb_true_iff, andb_true_iff, !N.ltb_lt, N.leb_le. reflexivity.
Qed.

(** The bytes of an accepted sequence are the encoding of its code point,
    and the code point is a scalar value. *)

Lemma accepted_one (b0 : byte) :
  (Byte.to_N b0 < 128)%N ->
  map byte_of_N (utf8_encode_char (Byte.to_N b0)) = [b0]
  /\ is_scalar (Byte.to_N b0) = true.
Proof.
  intros H. split; [|apply is_scalar_spec; lia].
  rewrite utf8_encode_char_1 by exact H. cbn [map].
  rewrite byte_of_N_to_N. reflexivity.
Qed.

Lemma accepted_two (b0 b1 : byte) :
  in_range 194 223 (Byte.to_N b0) = true ->
  is_continuation (Byte.to_N b1) = true ->
  map byte_of_N
    (utf8_encode_char ((Byte.to_N b0 - 192) * 64 + (Byte.to_N b1 - 128)))
  = [b0; b1]
  /\ is_scalar ((Byte.to_N b0 - 192) * 64 + (Byte.to_N b1 - 128)) = true.
Proof.
  intros H0 H1. apply in_range_spec in H0, H1.
  split; [|apply is_scalar_spec; lia].
  rewrite utf8_encode_char_2 by lia. cbn [map].
  replace (192 + (Byte.to_N b0 - 192))%N with (Byte.to_N b0) by lia.
  replace (128 + (Byte.to_N b1 - 128))%N with (Byte.to_N b1) by lia.
  rewrite !byte_of_N_to_N. reflexivity.
Qed.

Lemma accepted_three (b0 b1 b2 : byte) :
  in_range 224 239 (Byte.to_N b0) = true ->
  second_ok (Byte.to_N b0) (Byte.to_N b1) = true ->
  is_continuation (Byte.to_N b2) = true ->
  map byte_of_N
    (utf8_encode_char ((Byte.to_N b0 - 224) * 4096
                       + ((Byte.to_N b1 - 128) * 64 + (Byte.to_N b2 - 128))))
  = [b0; b1; b2]
  /\ is_scalar ((Byte.to_N b0 - 224) * 4096
                + ((Byte.to_N b1 - 128) * 64 + (Byte.to_N b2 - 128))) = true.
Proof.
  intros H0 H1 H2. apply in_range_spec in H0, H2. apply second_ok_spec in H1.
  split; [|apply is_scalar_spec; lia].
  rewrite utf8_encode_char_3 by lia. cbn [map].
  replace (224 + (Byte.to_N b0 - 224))%N with (Byte.to_N b0) by lia.
  replace (128 + (Byte.to_N b1 - 128))%N with (Byte.to_N b1) by lia.
  replace (128 + (Byte.to_N b2 - 128))%N with (Byte.to_N b2) by lia.
  rewrite !byte_of_N_to_N. reflexivity.
Qed.

Lemma accepted_four (b0 b1 b2 b3 : byte) :
  in_range 240 244 (Byte.to_N b0) = true ->
  second_ok (Byte.to_N b0) (Byte.to_N b1) = true ->
  is_continuation (Byte.to_N b2) = true ->
  is_continuation (Byte.to_N b3) = true ->
  map byte_of_N
    (utf8_encode_char ((Byte.to_N b0 - 240) * 262144
                       + ((Byte.to_N b1 - 128) * 4096
                          + ((Byte.to_N b2 - 128) * 64
                             + (Byte.to_N b3 - 128)))))
  = [b0; b1; b2; b3]
  /\ is_scalar ((Byte.to_N b0 - 240) * 262144
                + ((Byte.to_N b1 - 128) * 4096
                   + ((Byte.to_N b2 - 128) * 64 + (Byte.to_N b3 - 128))))
     = true.
Proof.
  intros H0 H1 H2 H3. apply in_range_spec in H0, H2, H3.
  apply second_ok_spec in H1.
  split; [|apply is_scalar_spec; lia].
  rewrite utf8_encode_char_4 by lia. cbn [map].
  replace (240 + (Byte.to_N b0 - 240))%N with (Byte.to_N b0) by lia.
  replace (128 + (Byte.to_N b1 - 128))%N with (Byte.to_N b1) by lia.
  replace (128 + (Byte.to_N b2 - 128))%N with (Byte.to_N b2) by lia.
  replace (128 + (Byte.to_N b3 - 128))%N with (Byte.to_N b3) by lia.
  rewrite !byte_of_N_to_N. reflexivity.
Qed.

Lemma utf8_encode_cons (c : N) (text : str) :
  utf8_encode (c :: text)
  = map byte_of_N (utf8_encode_char c) ++ utf8_encode text.
Proof. reflexivity. Qed.

Ltac strict_rejects H :=
  cbn [utf8_decode] in H; cbv zeta in H;
  repeat match goal with
    | E : ?c = _ |- _ =>
        match type of H with context [if c then _ else _] =>
          rewrite E in H
        end
    end;
  discriminate H.

Ltac strict_accepts IH Hlen H Hacc :=
  apply decoded_some in H; destruct H as (t' & Hrest & ->);
  apply IH in Hrest; [|simpl in Hlen |- *; lia];
  destruct Hrest as [Henc Hbs];
  destruct Hacc as [Hbytes Hscalar];
  split;
  [ cbn [utf8_encodable forallb]; rewrite Hscalar; exact Henc
  | rewrite utf8_encode_cons, Hbytes, <- Hbs; reflexivity ].

(** What strict decoding accepts is the encoding of the text it returns:
    nothing but well-formed UTF-8 is decoded without an error. *)
Lemma utf8_decode_strict_bounded (n : nat) :
  forall bs t, List.length bs <= n ->
  utf8_decode Strict bs = Some t ->
  utf8_encodable t = true /\ utf8_encode t = bs.
Proof.
  induction n as [|n IH]; intros bs t Hlen H.
  - destruct bs; [|simpl in Hlen; lia]. injection H as <-.
    split; reflexivity.
  - destruct bs as [|b0 r0]; [injection H as <-; split; reflexivity|].
    destruct (Byte.to_N b0 <? 128)%N eqn:E0.
    { apply N.ltb_lt in E0. rewrite utf8_decode_one in H by exact E0.
      strict_accepts IH Hlen H (accepted_one b0 E0). }
    destruct (in_range 194 223 (Byte.to_N b0)) eqn:E2.
    { destruct r0 as [|b1 r1]; [strict_rejects H|].
      destruct (is_continuation (Byte.to_N b1)) eqn:C1; [|strict_rejects H].
      rewrite utf8_decode_two in H by assumption.
      strict_accepts IH Hlen H (accepted_two b0 b1 E2 C1). }
    destruct (in_range 224 239 (Byte.to_N b0)) eqn:E3.
    { destruct r0 as [|b1 r1]; [strict_rejects H|].
      destruct (second_ok (Byte.to_N b0) (Byte.to_N b1)) eqn:C1;
        [|strict_rejects H].
      destruct r1 as [|b2 r2]; [strict_rejects H|].
      destruct (is_continuation (Byte.to_N b2)) eqn:C2; [|strict_rejects H].
      rewrite utf8_decode_three in H by assumption.
      strict_accepts IH Hlen H (accepted_three b0 b1 b2 E3 C1 C2). }
    destruct (in_range 240 244 (Byte.to_N b0)) eqn:E4.
    { destruct r0 as [|b1 r1]; [strict_rejects H|].
      destruct (second_ok (Byte.to_N b0) (Byte.to_N b1)) eqn:C1;
        [|strict_rejects H].
      destruct r1 as [|b2 r2]; [strict_rejects H|].
      destruct (is_continuation (Byte.to_N b2)) eqn:C2; [|strict_rejects H].
      destruct r2 as [|b3 r3]; [strict_rejects H|].
      destruct (is_continuation (Byte.to_N b3)) eqn:C3; [|strict_rejects H].
      rewrite utf8_decode_four in H by assumption.
      strict_accepts IH Hlen H (accepted_four b0 b1 b2 b3 E4 C1 C2 C3). }
    strict_rejects H.
Qed.

Lemma utf8_decode_strict_is_encoding (bs : list byte) (t : str) :
  utf8_decode Strict bs = Some t ->
  utf8_encodable t = true /\ utf8_encode t = bs.
Proof.
  apply utf8_decode_strict_bounded with (n := List.length bs). lia.
Qed.

(** Strict decoding succeeds exactly on the encodings of scalar texts. *)
Lemma utf8_decode_strict_iff (bs : list byte) (t : str) :
  utf8_decode Strict bs = Some t
  <-> (utf8_encodable t = true /\ utf8_encode t = bs).
Proof.
  split; [apply utf8_decode_strict_is_encoding|].
  intros [Ht <-]. apply utf8_decode_encode. exact Ht.
Qed.


(** ** The directory tree *)

Lemma node_induction (P : node -> Prop) :
  (forall name data, P (File name data)) ->
  (forall name listable entries,
      Forall P entries -> P (Dir name listable entries)) ->
  forall n, P n.
Proof.
  intros HF HD. fix IH 1. intros [name data | name listable entries].
  - apply HF.
  - apply HD. induction entries as [|e es IHes]; constructor.
    + apply IH.
    + exact IHes.
Qed.

Lemma str_ltb_asym (a b : str) : str_ltb a b = true -> str_ltb b a = false.
Proof.
  revert b; induction a as [|x a IH]; intros [|y b]; simpl;
    try reflexivity; try discriminate.
  intros H. apply orb_true_iff in H as [H | H].
  - apply N.ltb_lt in H.
    assert (Hyx : (y <? x)%N = false) by (apply N.ltb_ge; lia).
    assert (Hq : (y =? x)%N = false) by (apply N.eqb_neq; lia).
    rewrite Hyx, Hq. reflexivity.
  - apply andb_true_iff in H as [Hq H]. apply N.eqb_eq in Hq. subst y.
    rewrite N.ltb_irrefl, N.eqb_refl. simpl. apply IH. exact H.
Qed.

Lemma str_ltb_le_trans (a b c : str) :
  str_ltb b a = false -> str_ltb c b = false -> str_ltb c a = false.
Proof.
  revert b c; induction a as [|x a IH]; intros [|y b] [|z c]; simpl;
    try reflexivity; try discriminate.
  intros H1 H2.
  apply orb_false_iff in H1 as [H1 H1'].
  apply orb_false_iff in H2 as [H2 H2'].
  apply N.ltb_ge in H1, H2. apply orb_false_iff. split.
  - apply N.ltb_ge. lia.
  - destruct (N.eqb_spec z x) as [->|Hzx]; [|reflexivity]. simpl.
    assert (y = x) by lia. subst y.
    rewrite N.eqb_refl in H1', H2'. simpl in H1', H2'.
    apply IH with (b := b); assumption.
Qed.

Lemma key_ltb_asym (k1 k2 : bool * str) :
  key_ltb k1 k2 = true -> key_ltb k2 k1 = false.
Proof.
  destruct k1 as [[|] s1], k2 as [[|] s2]; unfold key_ltb; simpl;
    try discriminate; try reflexivity; apply str_ltb_asym.
Qed.

Lemma key_ltb_le_trans (k1 k2 k3 : bool * str) :
  key_ltb k2 k1 = false -> key_ltb k3 k2 = false -> key_ltb k3 k1 = false.
Proof.
  destruct k1 as [[|] s1], k2 as [[|] s2], k3 as [[|] s3];
    unfold key_ltb; simpl; try discriminate; try reflexivity;
    apply str_ltb_le_trans.
Qed.

Lemma key_le_tree_order (a b : node) :
  key_ltb (sort_key b) (sort_key a) = false -> tree_order a b.
Proof.
  unfold key_ltb, sort_key, tree_order. simpl.
  destruct (is_dir a), (is_dir b); simpl; intros H; split;
    congruence.
Qed.

Section SortFacts.

Variable A : Type.
Variable key : A -> bool * str.

Let le (a b : A) : Prop := key_ltb (key b) (key a) = false.

Lemma insert_by_perm (x : A) (l : list A) :
  Permutation (insert_by key x l) (x :: l).
Proof.
  induction l as [|y l IH]; simpl; [reflexivity|].
  destruct (key_ltb (key y) (key x)); [|reflexivity].
  rewrite IH. apply perm_swap.
Qed.

Lemma sort_by_perm (l : list A) : Permutation (sort_by key l) l.
Proof.
  induction l as [|x l IH]; simpl; [reflexivity|].
  rewrite insert_by_perm. constructor. exact IH.
Qed.

Lemma insert_by_sorted (x : A) (l : list A) :
  StronglySorted le l -> StronglySorted le (insert_by key x l).
Proof.
  induction l as [|y l IH]; simpl; intros Hs.
  - constructor; constructor.
  - inversion Hs as [|? ? Hl Hy]; subst.
    destruct (key_ltb (key y) (key x)) eqn:Hlt.
    + constructor; [apply IH; exact Hl|].
      apply Forall_forall. intros z Hz.
      apply (Permutation_in _ (insert_by_perm x l)) in Hz.
      destruct Hz as [<- | Hz].
      * unfold le. apply key_ltb_asym. exact Hlt.
      * rewrite Forall_forall in Hy. apply Hy. exact Hz.
    + constructor; [exact Hs|]. constructor; [exact Hlt|].
      rewrite Forall_forall in Hy |- *. intros z Hz. unfold le.
      apply key_ltb_le_trans with (k2 := key y); [exact Hlt|].
      apply Hy. exact Hz.
Qed.

Lemma sort_by_sorted (l : list A) : StronglySorted le (sort_by key l).
Proof.
  induction l as [|x l IH]; simpl; [constructor|].
  apply insert_by_sorted. exact IH.
Qed.

End SortFacts.

Lemma sort_by_tree_order (l : list node) :
  StronglySorted tree_order (sort_by sort_key l).
Proof.
  pose proof (sort_by_sorted sort_key l) as H.
  induction H as [|a l' Hs IH Hf]; constructor; [exact IH|].
  eapply Forall_impl; [|exact Hf]. intros b. apply key_le_tree_order.
Qed.

Section Pairing.

Variable F : node -> str -> list str.

Let pair (e : node) : node * (str -> list str) := (e, F e).

Lemma filter_pairs (keep : str -> bool) (l : list node) :
  filter (fun p => keep (node_name (fst p))) (map pair l)
  = map pair (filter (fun e => keep (node_name e)) l).
Proof.
  induction l as [|e l IH]; simpl; [reflexivity|].
  destruct (keep (node_name e)); simpl; rewrite IH; reflexivity.
Qed.

Lemma insert_pairs (e : node) (l : list node) :
  insert_by (fun p => sort_key (fst p)) (pair e) (map pair l)
  = map pair (insert_by sort_key e l).
Proof.
  induction l as [|y l IH]; simpl; [reflexivity|].
  destruct (key_ltb (sort_key y) (sort_key e)); simpl;
    [rewrite IH|]; reflexivity.
Qed.

Lemma sort_pairs (l : list node) :
  sort_by (fun p => sort_key (fst p)) (map pair l)
  = map pair (sort_by sort_key l).
Proof.
  induction l as [|e l IH]; simpl; [reflexivity|].
  rewrite IH. apply insert_pairs.
Qed.

End Pairing.

(** [recursive_list] in the order of the source: list, filter, sort, then
    one line for each entry and the listing of each directory. *)
Lemma recursive_list_unfold (self : Path2File) (name : str)
    (entries : list node) (prefix : str) :
  recursive_list self (Dir name true entries) prefix
  = tree_lines prefix
      (map (fun e => (e, recursive_list self e)) (listed self entries)).
Proof.
  cbn [recursive_list]. unfold listed.
  rewrite (filter_pairs (recursive_list self) (shown self)).
  rewrite sort_pairs. reflexivity.
Qed.

Lemma listed_in (self : Path2File) (entries : list node) (e : node) :
  In e (listed self entries)
  <-> In e entries /\ shown self (node_name e) = true.
Proof.
  unfold listed. split; intros H.
  - apply (Permutation_in _ (sort_by_perm sort_key _)) in H.
    apply filter_In in H. exact H.
  - apply (Permutation_in _ (Permutation_sym (sort_by_perm sort_key _))).
    apply filter_In. exact H.
Qed.

Lemma tree_lines_ext (F G : node -> str -> list str) (l : list node)
    (prefix : str) :
  (forall e p, In e l -> F e p = G e p) ->
  tree_lines prefix (map (fun e => (e, F e)) l)
  = tree_lines prefix (map (fun e => (e, G e)) l).
Proof.
  induction l as [|e l IH]; intros H; [reflexivity|].
  cbn [map tree_lines]. rewrite IH by (intros; apply H; right; assumption).
  rewrite H by (left; reflexivity).
  destruct l; reflexivity.
Qed.

Lemma tree_lines_in (F : node -> str -> list str) (l : list node)
    (prefix : str) (e : node) :
  In e l ->
  exists part, (part = tee \/ part = corner)
    /\ In (prefix ++ part ++ node_name e)
          (tree_lines prefix (map (fun e => (e, F e)) l)).
Proof.
  induction l as [|x l IH]; [intros []|intros [<- | Hin]].
  - exists (if py_not (map (fun e => (e, F e)) l) then corner else tee).
    split; [destruct (py_not _); auto|]. left. reflexivity.
  - destruct (IH Hin) as [part [Hp Hl]]. exists part. split; [exact Hp|].
    cbn [map tree_lines]. right. apply in_or_app. right. exact Hl.
Qed.

Lemma recursive_list_same_exclusions (self1 self2 : Path2File) (n : node) :
  excluded_folders self1 = excluded_folders self2 ->
  excluded_file_types self1 = excluded_file_types self2 ->
  forall prefix, recursive_list self1 n prefix = recursive_list self2 n prefix.
Proof.
  intros Hf Ht. induction n as [name data | name listable entries IH]
    using node_induction; intros prefix; [reflexivity|].
  destruct listable; [|reflexivity].
  rewrite !recursive_list_unfold.
  assert (Hl : listed self1 entries = listed self2 entries).
  { unfold listed, shown. rewrite Hf, Ht. reflexivity. }
  rewrite Hl. apply tree_lines_ext. intros e p He.
  apply listed_in in He as [He _]. rewrite Forall_forall in IH.
  apply IH. exact He.
Qed.

Lemma str_ltb_total (a b : str) :
  str_ltb a b = false -> str_ltb b a = false -> a = b.
Proof.
  revert b; induction a as [|x a IH]; intros [|y b]; simpl;
    try reflexivity; try discriminate.
  intros H1 H2. apply orb_false_iff in H1 as [H1 H1'].
  apply orb_false_iff in H2 as [H2 H2']. apply N.ltb_ge in H1, H2.
  assert (x = y) by lia. subst y. rewrite N.eqb_refl in H1', H2'.
  simpl in H1', H2'. f_equal. apply IH; assumption.
Qed.

Lemma key_ltb_total (k1 k2 : bool * str) :
  key_ltb k1 k2 = false -> key_ltb k2 k1 = false -> k1 = k2.
Proof.
  destruct k1 as [[|] s1], k2 as [[|] s2]; unfold key_ltb; simpl;
    try discriminate; intros H1 H2; f_equal; apply str_ltb_total; assumption.
Qed.

Lemma str_ltb_prefix (a post : str) :
  post <> [] -> str_ltb a (a ++ post) = true.
Proof.
  intros Hp. induction a as [|x a IH]; cbn [app str_ltb].
  - destruct post; [contradiction | reflexivity].
  - rewrite N.eqb_refl, IH. apply orb_true_r.
Qed.

Lemma str_ltb_first_difference (pre : str) (x y : N) (a b : str) :
  (x < y)%N -> str_ltb (pre ++ x :: a) (pre ++ y :: b) = true.
Proof.
  intros Hxy. induction pre as [|c pre IH]; cbn [app str_ltb].
  - apply N.ltb_lt in Hxy. rewrite Hxy. reflexivity.
  - rewrite N.eqb_refl, IH. apply orb_true_r.
Qed.

(** The comparison function is the alphabetical order. *)
Lemma str_ltb_precedes (a : str) :
  forall b, str_ltb a b = true <-> precedes a b.
Proof.
  intros b. split.
  - revert b. induction a as [|x a IH]; intros [|y b] H;
      try discriminate H.
    + left. exists (y :: b). split; [discriminate | reflexivity].
    + cbn [str_ltb] in H. apply orb_true_iff in H as [H | H].
      * right. exists [], x, y, a, b. apply N.ltb_lt in H.
        split; [reflexivity|]. split; [reflexivity | exact H].
      * apply andb_true_iff in H as [Hxy H]. apply N.eqb_eq in Hxy.
        subst y. apply IH in H.
        destruct H as [(post & Hp & ->)
                      | (pre & x' & y' & a' & b' & -> & -> & Hlt)].
        -- left. exists post. split; [exact Hp | reflexivity].
        -- right. exists (x :: pre), x', y', a', b'.
           split; [reflexivity|]. split; [reflexivity | exact Hlt].
  - intros [(post & Hp & ->) | (pre & x & y & a' & b' & -> & -> & Hlt)].
    + apply str_ltb_prefix. exact Hp.
    + apply str_ltb_first_difference. exact Hlt.
Qed.

Lemma tree_order_listed_before (a b : node) :
  tree_order a b -> listed_before a b.
Proof.
  intros [Hd Hn]. unfold listed_before.
  destruct (is_dir a) eqn:Ha, (is_dir b) eqn:Hb.
  - right. split; [reflexivity|].
    destruct (str_ltb (node_name a) (node_name b)) eqn:Hab.
    + right. apply str_ltb_precedes. exact Hab.
    + left. apply str_ltb_total; [exact Hab | apply Hn; reflexivity].
  - left. split; reflexivity.
  - specialize (Hd eq_refl). discriminate Hd.
  - right. split; [reflexivity|].
    destruct (str_ltb (node_name a) (node_name b)) eqn:Hab.
    + right. apply str_ltb_precedes. exact Hab.
    + left. apply str_ltb_total; [exact Hab | apply Hn; reflexivity].
Qed.

Lemma sort_by_listed_before (l : list node) :
  StronglySorted listed_before (sort_by sort_key l).
Proof.
  pose proof (sort_by_tree_order l) as H.
  induction H as [|a l' Hs IH Hf]; constructor; [exact IH|].
  eapply Forall_impl; [|exact Hf]. intros b. apply tree_order_listed_before.
Qed.

(** C6. The tree lists the entries of a directory (those that pass the
    name filter) sorted, directories before files and by name among the
    directories and among the files; every entry but the last has the
    glyph [├── ] (U+251C U+2500 U+2500 and a space) before its name and the
    last one [└── ] (U+2514 ...); the listing of a subdirectory is
    indented by [│   ] (U+2502 and three spaces) when the subdirectory is
    not the last entry and by four spaces when it is.  A folder that holds
    the subfolder [x] (with the file [f.txt]) and the file [y.txt] is drawn
    as [├── x], [│   └── f.txt], [└── y.txt].  The order by name is the
    alphabetical one on code points, [precedes]: a name before the longer
    names that begin with it, and otherwise the smaller code point first
    at the first difference; the comparison of the sort is this order.  A
    folder that holds [b.txt], [zdir], [a.txt], [adir] and [B.txt] is drawn
    as [adir], [zdir], [B.txt], [a.txt], [b.txt]. *)
Theorem tree_lists_sorted_entries
    (self : Path2File) (name : str) (entries : list node) (prefix : str) :
  Permutation (listed self entries)
    (filter (fun e => shown self (node_name e)) entries)
  /\ StronglySorted tree_order (listed self entries)
  /\ recursive_list self (Dir name true entries) prefix
     = tree_lines prefix
         (map (fun e => (e, recursive_list self e)) (listed self entries))
  /\ (forall e F,
        tree_lines prefix [(e, F)]
        = (prefix ++ [9492; 9472; 9472; 32]%N ++ node_name e)
          :: (if is_dir e then F (prefix ++ [32; 32; 32; 32]%N) else []))
  /\ (forall e F next rest,
        tree_lines prefix ((e, F) :: next :: rest)
        = (prefix ++ [9500; 9472; 9472; 32]%N ++ node_name e)
          :: (if is_dir e then F (prefix ++ [9474; 32; 32; 32]%N) else [])
          ++ tree_lines prefix (next :: rest))
  /\ (forall folder out included m data1 data2,
        map_directory_structure (init folder out included [] [] m)
          (Dir folder true
             [File (lit "y.txt") data1;
              Dir (lit "x") true [File (lit "f.txt") data2]])
        = join [nl]
            [[9500; 9472; 9472; 32]%N ++ lit "x";
             [9474; 32; 32; 32]%N ++ [9492; 9472; 9472; 32]%N ++ lit "f.txt";
             [9492; 9472; 9472; 32]%N ++ lit "y.txt"])
  /\ StronglySorted listed_before (listed self entries)
  /\ (forall a b, str_ltb a b = true <-> precedes a b)
  /\ (forall a b,
        key_ltb (sort_key a) (sort_key b) = true
        <-> (is_dir a = true /\ is_dir b = false
             \/ is_dir a = is_dir b
                /\ precedes (node_name a) (node_name b)))
  /\ (forall folder out included m data1 data2 data3,
        map_directory_structure (init folder out included [] [] m)
          (Dir folder true
             [File (lit "b.txt") data1; Dir (lit "zdir") true [];
              File (lit "a.txt") data2; Dir (lit "adir") true [];
              File (lit "B.txt") data3])
        = join [nl]
            [[9500; 9472; 9472; 32]%N ++ lit "adir";
             [9500; 9472; 9472; 32]%N ++ lit "zdir";
             [9500; 9472; 9472; 32]%N ++ lit "B.txt";
             [9500; 9472; 9472; 32]%N ++ lit "a.txt";
             [9492; 9472; 9472; 32]%N ++ lit "b.txt"]).
Proof.
  split; [apply sort_by_perm|].
  split; [apply sort_by_tree_order|].
  split; [apply recursive_list_unfold|].
  split; [intros e F; cbn [tree_lines py_not]; rewrite app_nil_r;
          reflexivity|].
  split; [intros e F next rest; reflexivity|].
  split; [intros folder out included m data1 data2; reflexivity|].
  split; [apply sort_by_listed_before|].
  split; [intros a b; apply str_ltb_precedes|].
  split; [|intros folder out included m data1 data2 data3; reflexivity].
  intros a b. unfold key_ltb, sort_key. cbn [fst snd].
  rewrite <- str_ltb_precedes.
  destruct (is_dir a), (is_dir b); cbn [negb]; split; intros H.
  - right. split; [reflexivity | exact H].
  - destruct H as [[_ H] | [_ H]]; [discriminate H | exact H].
  - left. split; reflexivity.
  - reflexivity.
  - discriminate H.
  - destruct H as [[H _] | [H _]]; discriminate H.
  - right. split; [reflexivity | exact H].
  - destruct H as [[H _] | [_ H]]; [discriminate H | exact H].
Qed.

(** C8. The tree is drawn from the two exclusion lists alone: two
    configurations with the same excluded folders and file types give the
    same tree text, whatever their patterns from [.gitignore]; and every
    entry of the input folder whose name is in neither list has its line
    in the tree, matched by a pattern or not. *)
Theorem tree_never_consults_patterns
    (self1 self2 : Path2File) (tree : node) :
  excluded_folders self1 = excluded_folders self2 ->
  excluded_file_types self1 = excluded_file_types self2 ->
  map_directory_structure self1 tree = map_directory_structure self2 tree
  /\ (forall name entries e,
        tree = Dir name true entries -> In e entries ->
        shown self1 (node_name e) = true ->
        exists part, (part = tee \/ part = corner)
          /\ In (part ++ node_name e) (recursive_list self2 tree [])).
Proof.
  intros Hf Ht. split.
  - unfold map_directory_structure.
    rewrite (recursive_list_same_exclusions self1 self2 tree Hf Ht).
    reflexivity.
  - intros name entries e -> Hin Hs.
    rewrite <- (recursive_list_same_exclusions self1 self2 _ Hf Ht).
    rewrite recursive_list_unfold.
    apply (tree_lines_in (recursive_list self1) (listed self1 entries) [] e).
    apply listed_in. split; assumption.
Qed.

(** * Further properties *)

(** ** The suffix of a name and the document formats *)

Lemma rfind_dot_none (i : nat) (name : str) :
  rfind_dot i name = None -> ~ In dot name.
Proof.
  revert i; induction name as [|c rest IH]; intros i; cbn [rfind_dot];
    [intros _ []|].
  destruct (rfind_dot (S i) rest) eqn:Hr; [discriminate|].
  destruct (N.eqb_spec c dot) as [->|Hc]; [discriminate|].
  intros _ [Heq | Hin]; [congruence | exact (IH _ Hr Hin)].
Qed.

Lemma rfind_dot_some (i j : nat) (name : str) :
  rfind_dot i name = Some j ->
  exists pre post,
    name = pre ++ dot :: post /\ j = i + List.length pre /\ ~ In dot post.
Proof.
  revert i; induction name as [|c rest IH]; intros i; cbn [rfind_dot];
    [discriminate|].
  destruct (rfind_dot (S i) rest) as [j'|] eqn:Hr.
  - intros H. injection H as <-.
    destruct (IH _ Hr) as [pre [post [-> [-> Hn]]]].
    exists (c :: pre), post. repeat split; [simpl; lia | exact Hn].
  - destruct (N.eqb_spec c dot) as [->|Hc]; [|discriminate].
    intros H. injection H as <-. exists [], rest.
    repeat split; [simpl; lia | exact (rfind_dot_none _ _ Hr)].
Qed.

(** The suffix is empty, or it is the last dot of the name, not its first
    character, with what follows it, which is not empty. *)
Lemma suffix_shape (name : str) :
  suffix name = []
  \/ exists pre post,
       name = pre ++ dot :: post /\ suffix name = dot :: post
       /\ pre <> [] /\ post <> [] /\ ~ In dot post.
Proof.
  unfold suffix. destruct (rfind_dot 0 name) as [i|] eqn:Hr; [|left; reflexivity].
  destruct (rfind_dot_some _ _ Hr) as [pre [post [-> [-> Hn]]]].
  destruct ((0 <? 0 + List.length pre)
            && (0 + List.length pre <? List.length (pre ++ dot :: post) - 1))
    eqn:Hc; [|left; reflexivity].
  right. exists pre, post. apply andb_true_iff in Hc as [H1 H2].
  apply Nat.ltb_lt in H1, H2. rewrite length_app in H2. simpl in H1, H2.
  split; [reflexivity|]. split.
  - simpl. rewrite skipn_app, skipn_all, Nat.sub_diag. reflexivity.
  - split; [intros ->; simpl in H1; lia|].
    split; [intros ->; simpl in H2; lia | exact Hn].
Qed.

Lemma endswith_suffix_exact (name ext : str) :
  endswith (suffix name) (dot :: ext) = true <-> suffix name = dot :: ext.
Proof.
  split.
  - intros H. apply endswith_ends_with in H as [p Hp].
    destruct (suffix_shape name) as [He | [pre [post [_ [Hs [_ [_ Hn]]]]]]].
    + rewrite He in Hp. destruct p; discriminate.
    + rewrite Hs in Hp |- *. destruct p as [|x p]; [exact Hp|].
      injection Hp as _ Hp. exfalso. apply Hn. rewrite Hp.
      apply in_or_app. right. left. reflexivity.
  - intros ->. apply endswith_ends_with. exists []. reflexivity.
Qed.

Lemma supported_extension_exact (name : str) :
  existsb (fun ext => endswith (suffix name) ext) supported_extensions = true
  <-> In (suffix name) supported_extensions.
Proof.
  rewrite existsb_exists. split.
  - intros [ext [Hin H]].
    assert (Hd : exists e, ext = dot :: e).
    { destruct Hin as [<- | [<- | [<- | [<- | []]]]]; eexists; reflexivity. }
    destruct Hd as [e ->]. apply endswith_suffix_exact in H.
    rewrite H. exact Hin.
  - intros Hin. exists (suffix name). split; [exact Hin|].
    apply endswith_ends_with. exists []. reflexivity.
Qed.

(** ** The lines of the tree *)

Lemma tree_lines_in_inv (F : node -> str -> list str) (l : list node)
    (prefix line : str) :
  In line (tree_lines prefix (map (fun e => (e, F e)) l)) ->
  exists e, In e l
    /\ ((exists part, (part = tee \/ part = corner)
           /\ line = prefix ++ part ++ node_name e)
        \/ (is_dir e = true
            /\ exists ext, (ext = bar \/ ext = blank)
                 /\ In line (F e (prefix ++ ext)))).
Proof.
  induction l as [|x l IH]; cbn [map tree_lines]; [intros []|].
  intros [Heq | Hin].
  - exists x. split; [left; reflexivity|]. left.
    exists (if py_not (map (fun e => (e, F e)) l) then corner else tee).
    split; [destruct (py_not _); auto | symmetry; exact Heq].
  - apply in_app_or in Hin as [Hin | Hin].
    + exists x. split; [left; reflexivity|]. right.
      destruct (is_dir x); [|destruct Hin]. split; [reflexivity|].
      exists (if py_not (map (fun e => (e, F e)) l) then blank else bar).
      split; [destruct (py_not _); auto | exact Hin].
    + destruct (IH Hin) as [e [He H]]. exists e. split; [right; exact He|].
      exact H.
Qed.

Lemma tree_lines_in_sub (F : node -> str -> list str) (l : list node)
    (prefix : str) (d : node) :
  In d l -> is_dir d = true ->
  exists ext, (ext = bar \/ ext = blank)
    /\ forall line, In line (F d (prefix ++ ext)) ->
         In line (tree_lines prefix (map (fun e => (e, F e)) l)).
Proof.
  induction l as [|x l IH]; [intros []|]. intros [<- | Hin] Hd.
  - exists (if py_not (map (fun e => (e, F e)) l) then blank else bar).
    split; [destruct (py_not _); auto|].
    intros line Hl. cbn [map tree_lines]. rewrite Hd. right.
    apply in_or_app. left. exact Hl.
  - destruct (IH Hin Hd) as [ext [He H]]. exists ext. split; [exact He|].
    intros line Hl. cbn [map tree_lines]. right. apply in_or_app. right.
    apply H. exact Hl.
Qed.

Lemma line_of_deeper (prefix ext : str) (depth : nat) (e : node) (line : str) :
  ext = bar \/ ext = blank ->
  line_of (prefix ++ ext) depth e line -> line_of prefix (S depth) e line.
Proof.
  intros He [indents [part [-> [Hl [Hf Hp]]]]].
  exists (ext :: indents), part. cbn [List.concat List.length].
  rewrite <- !app_assoc. repeat split; auto.
Qed.

Lemma recursive_list_drawn (self : Path2File) (n : node) :
  forall prefix line,
  In line (recursive_list self n prefix) ->
  exists depth e, drawn_at self n depth e /\ line_of prefix depth e line.
Proof.
  induction n as [name data | name listable entries IH] using node_induction;
    intros prefix line; [intros []|].
  destruct listable; [|intros []].
  rewrite recursive_list_unfold. intros Hin.
  apply tree_lines_in_inv in Hin as [e [He H]].
  apply listed_in in He as [He Hs].
  destruct H as [[part [Hp ->]] | [Hd [ext [Hext Hin]]]].
  - exists 0, e. split; [apply drawn_here; assumption|].
    exists [], part. repeat split; auto.
  - rewrite Forall_forall in IH.
    destruct (IH e He _ _ Hin) as [depth [e' [Hdr Hl]]].
    exists (S depth), e'. split.
    + apply drawn_below with (d := e); assumption.
    + apply line_of_deeper with (ext := ext); assumption.
Qed.

Lemma drawn_recursive_list (self : Path2File) (n : node) (depth : nat)
    (e : node) :
  drawn_at self n depth e ->
  forall prefix, exists line,
    line_of prefix depth e line /\ In line (recursive_list self n prefix).
Proof.
  induction 1 as [name entries e Hin Hs
                 | name entries d depth e Hin Hs Hd Hdr IH]; intros prefix.
  - assert (Hl : In e (listed self entries)) by (apply listed_in; auto).
    destruct (tree_lines_in (recursive_list self) (listed self entries)
                prefix e Hl) as [part [Hp Hline]].
    exists (prefix ++ part ++ node_name e). split.
    + exists [], part. repeat split; auto.
    + rewrite recursive_list_unfold. exact Hline.
  - assert (Hl : In d (listed self entries)) by (apply listed_in; auto).
    destruct (tree_lines_in_sub (recursive_list self) (listed self entries)
                prefix d Hl Hd) as [ext [Hext Hsub]].
    destruct (IH (prefix ++ ext)) as [line [Hline Hin']].
    exists line. split.
    + apply line_of_deeper with (ext := ext); assumption.
    + rewrite recursive_list_unfold. apply Hsub. exact Hin'.
Qed.

(** X9. The lines of the tree are the entries that are drawn: every line
    is the line of an entry whose name is filtered out nowhere on the way
    to it, indented by four characters for each level of its depth, and
    every such entry has a line; an entry with an excluded name, and
    whatever is below a directory with an excluded name, gets none. *)
Theorem tree_lines_are_drawn_entries (self : Path2File) (n : node)
    (prefix : str) :
  (forall line,
      In line (recursive_list self n prefix) ->
      exists depth e, drawn_at self n depth e /\ line_of prefix depth e line)
  /\ (forall depth e,
        drawn_at self n depth e ->
        exists line,
          line_of prefix depth e line
          /\ In line (recursive_list self n prefix)).
Proof.
  split.
  - apply recursive_list_drawn.
  - intros depth e H. apply drawn_recursive_list. exact H.
Qed.

(** ** The tree and the order of the listing *)

Lemma sorted_entries_unique (l1 : list node) :
  forall l2,
  StronglySorted
    (fun a b => key_ltb (sort_key b) (sort_key a) = false) l1 ->
  StronglySorted
    (fun a b => key_ltb (sort_key b) (sort_key a) = false) l2 ->
  Permutation l1 l2 -> NoDup (map node_name l1) -> l1 = l2.
Proof.
  induction l1 as [|a l1 IH]; intros l2 Hs1 Hs2 Hp Hn.
  - apply Permutation_nil in Hp. congruence.
  - destruct l2 as [|b l2];
      [apply Permutation_sym, Permutation_nil in Hp; discriminate|].
    inversion Hs1 as [|? ? Hs1' Hf1]; subst.
    inversion Hs2 as [|? ? Hs2' Hf2]; subst.
    inversion Hn as [|? ? Hna Hn']; subst.
    rewrite Forall_forall in Hf1, Hf2.
    assert (Hab : a = b).
    { assert (Ha : In a (b :: l2))
        by (apply (Permutation_in _ Hp); left; reflexivity).
      assert (Hb : In b (a :: l1))
        by (apply (Permutation_in _ (Permutation_sym Hp)); left; reflexivity).
      destruct Ha as [Ha | Ha]; [congruence|].
      destruct Hb as [Hb | Hb]; [congruence|].
      exfalso. apply Hna.
      assert (Hk : sort_key a = sort_key b)
        by (apply key_ltb_total; [apply Hf2 | apply Hf1]; assumption).
      unfold sort_key in Hk. injection Hk as _ Hk. rewrite Hk.
      apply in_map. exact Hb. }
    subst b. f_equal. apply IH; try assumption.
    apply Permutation_cons_inv with (a := a). exact Hp.
Qed.

Lemma filter_permutation (A : Type) (f : A -> bool) (l l' : list A) :
  Permutation l l' -> Permutation (filter f l) (filter f l').
Proof.
  induction 1 as [| x l l' _ IH | x y l | l l' l'' _ IH1 _ IH2]; simpl.
  - constructor.
  - destruct (f x); [constructor|]; exact IH.
  - destruct (f x), (f y); try reflexivity. apply perm_swap.
  - eapply Permutation_trans; eassumption.
Qed.

Lemma filter_names_nodup (f : node -> bool) (l : list node) :
  NoDup (map node_name l) -> NoDup (map node_name (filter f l)).
Proof.
  induction l as [|x l IH]; simpl; intros H; [constructor|].
  inversion H as [|? ? Hx Hl]; subst. destruct (f x); [|apply IH; exact Hl].
  simpl. constructor; [|apply IH; exact Hl].
  intros Hin. apply Hx. apply in_map_iff in Hin as [y [Hy Hin]].
  apply filter_In in Hin as [Hin _]. rewrite <- Hy. apply in_map. exact Hin.
Qed.

Lemma listed_permutation (self : Path2File) (entries reordered : list node) :
  NoDup (map node_name entries) -> Permutation entries reordered ->
  listed self entries = listed self reordered.
Proof.
  intros Hn Hp. unfold listed. apply sorted_entries_unique.
  - apply sort_by_sorted.
  - apply sort_by_sorted.
  - rewrite !sort_by_perm. apply filter_permutation. exact Hp.
  - apply (Permutation_NoDup
             (l := map node_name
                     (filter (fun e => shown self (node_name e)) entries))).
    + apply Permutation_map, Permutation_sym, sort_by_perm.
    + apply filter_names_nodup. exact Hn.
Qed.

Lemma same_entries_key (a b : node) :
  same_entries a b -> node_name a = node_name b /\ is_dir a = is_dir b.
Proof. destruct 1; split; reflexivity. Qed.

Lemma filter_same_entries (self : Path2File) (l l' : list node) :
  Forall2 same_entries l l' ->
  Forall2 same_entries
    (filter (fun e => shown self (node_name e)) l)
    (filter (fun e => shown self (node_name e)) l').
Proof.
  induction 1 as [|a b l l' Hab _ IH]; simpl; [constructor|].
  destruct (same_entries_key Hab) as [Hname _]. rewrite <- Hname.
  destruct (shown self (node_name a)); [constructor|]; assumption.
Qed.

Lemma insert_same_entries (a b : node) (l l' : list node) :
  same_entries a b -> Forall2 same_entries l l' ->
  Forall2 same_entries (insert_by sort_key a l) (insert_by sort_key b l').
Proof.
  intros Hab. induction 1 as [|x y l l' Hxy Hl IH]; simpl.
  - constructor; [exact Hab | constructor].
  - assert (Hk : sort_key x = sort_key y /\ sort_key a = sort_key b).
    { unfold sort_key. destruct (same_entries_key Hab) as [-> ->].
      destruct (same_entries_key Hxy) as [-> ->]. auto. }
    destruct Hk as [<- <-].
    destruct (key_ltb (sort_key x) (sort_key a)).
    + constructor; assumption.
    + constructor; [exact Hab|]. constructor; assumption.
Qed.

Lemma sort_same_entries (l l' : list node) :
  Forall2 same_entries l l' ->
  Forall2 same_entries (sort_by sort_key l) (sort_by sort_key l').
Proof.
  induction 1 as [|a b l l' Hab _ IH]; simpl; [constructor|].
  apply insert_same_entries; assumption.
Qed.

Lemma tree_lines_same (F F' : node -> str -> list str) (l l' : list node)
    (prefix : str) :
  Forall2 (fun e e' => node_name e = node_name e' /\ is_dir e = is_dir e'
                       /\ forall p, F e p = F' e' p) l l' ->
  tree_lines prefix (map (fun e => (e, F e)) l)
  = tree_lines prefix (map (fun e => (e, F' e)) l').
Proof.
  induction 1 as [|a b l l' [Hn [Hd HF]] Hl IH]; [reflexivity|].
  assert (Hnil : py_not (map (fun e => (e, F e)) l)
                 = py_not (map (fun e => (e, F' e)) l')).
  { destruct Hl; reflexivity. }
  cbn [map tree_lines]. cbv zeta. rewrite IH, Hn, Hd, Hnil, HF.
  reflexivity.
Qed.

Lemma forall2_in_left (A B : Type) (R Q : A -> B -> Prop) (l : list A)
    (l' : list B) :
  Forall2 R l l' -> (forall a b, In a l -> R a b -> Q a b) -> Forall2 Q l l'.
Proof.
  induction 1 as [|a b l l' Hab _ IH]; intros H; constructor.
  - apply H; [left; reflexivity | exact Hab].
  - apply IH. intros x y Hx. apply H. right. exact Hx.
Qed.

Lemma recursive_list_same_entries (self : Path2File) (n : node) :
  forall n', same_entries n n' ->
  forall prefix, recursive_list self n prefix = recursive_list self n' prefix.
Proof.
  induction n as [name data | name listable entries IH] using node_induction;
    intros n' Hs prefix; inversion Hs as [| ? ? ? entries' reordered Hn Hp Hf];
    subst; [reflexivity|].
  destruct listable; [|reflexivity].
  rewrite !recursive_list_unfold.
  rewrite (listed_permutation self Hn Hp).
  apply tree_lines_same.
  assert (HL : Forall2 same_entries (listed self reordered)
                 (listed self entries')).
  { unfold listed. apply sort_same_entries, filter_same_entries. exact Hf. }
  eapply forall2_in_left; [exact HL|].
  intros a b Ha Hab. destruct (same_entries_key Hab) as [Hname Hdir].
  split; [exact Hname|]. split; [exact Hdir|]. intros p.
  rewrite Forall_forall in IH. apply IH; [|exact Hab].
  apply listed_in in Ha as [Ha _].
  apply (Permutation_in _ (Permutation_sym Hp)). exact Ha.
Qed.

(** X10. The tree does not depend on the order in which the system lists
    the entries of a directory, nor on what the files hold: two folders
    with the same names at every level, in whatever order, give the same
    text. *)
Theorem tree_independent_of_listing_order (self : Path2File)
    (tree tree' : node) :
  same_entries tree tree' ->
  map_directory_structure self tree = map_directory_structure self tree'.
Proof.
  intros H. unfold map_directory_structure.
  rewrite (recursive_list_same_entries self H). reflexivity.
Qed.

(** ** The lines of [.gitignore] *)

Lemma lstrip_head (s : str) (c : N) (r : str) :
  lstrip s = c :: r -> py_isspace c = false.
Proof.
  induction s as [|x s IH]; cbn [lstrip]; [discriminate|].
  destruct (py_isspace x) eqn:Hx; [exact IH|].
  intros H. injection H as <- _. exact Hx.
Qed.

Lemma lstrip_suffix (s : str) : exists ws, s = ws ++ lstrip s.
Proof.
  induction s as [|x s [ws IH]]; cbn [lstrip]; [exists []; reflexivity|].
  destruct (py_isspace x); [|exists []; reflexivity].
  exists (x :: ws). simpl. rewrite <- IH. reflexivity.
Qed.

Lemma strip_ends (s : str) :
  strip s <> [] ->
  (exists c r, strip s = c :: r /\ py_isspace c = false)
  /\ (exists r c, strip s = r ++ [c] /\ py_isspace c = false).
Proof.
  unfold strip. intros Hne.
  destruct (lstrip (rev (lstrip s))) as [|c2 r2] eqn:H2;
    [exfalso; apply Hne; reflexivity|].
  split.
  - destruct (lstrip_suffix (rev (lstrip s))) as [ws Hws].
    rewrite H2 in Hws. apply (f_equal (@rev N)) in Hws.
    rewrite rev_involutive, rev_app_distr in Hws.
    destruct (rev (c2 :: r2)) as [|x xs] eqn:Hr.
    + apply (f_equal (@List.length N)) in Hr. rewrite length_rev in Hr.
      discriminate.
    + exists x, xs. split; [reflexivity|].
      apply lstrip_head with (s := s) (r := xs ++ rev ws). exact Hws.
  - exists (rev r2), c2. split; [reflexivity|].
    apply lstrip_head with (s := rev (lstrip s)) (r := r2). exact H2.
Qed.

Lemma universal_newlines_crlf (text : str) :
  ~ In cr text -> universal_newlines (crlf text) = text.
Proof.
  induction text as [|c rest IH]; intros H; [reflexivity|].
  assert (Hc : c <> cr) by (intros ->; apply H; left; reflexivity).
  assert (Hr : ~ In cr rest) by (intros Hin; apply H; right; exact Hin).
  cbn [crlf flat_map]. fold (crlf rest).
  destruct (N.eqb_spec c nl) as [->|Hn].
  - cbn [app universal_newlines N.eqb cr nl Pos.eqb]. rewrite IH by exact Hr.
    reflexivity.
  - cbn [app universal_newlines]. apply N.eqb_neq in Hc. rewrite Hc.
    rewrite IH by exact Hr. reflexivity.
Qed.

(** X11. The patterns read from [.gitignore] are trimmed lines: a pattern
    is not empty, starts neither with white space nor with [#], and does
    not end with white space; and a file saved with carriage return and
    newline at the end of its lines gives the same patterns as the file
    with newlines alone. *)
Theorem read_gitignore_trims_lines (self : Path2File) (text : str) :
  (forall p,
      In p (ignored_patterns (read_gitignore self (Some text))) ->
      (exists c r, p = c :: r /\ py_isspace c = false /\ c <> hash)
      /\ (exists r c, p = r ++ [c] /\ py_isspace c = false))
  /\ (~ In cr text ->
      read_gitignore self (Some (crlf text))
      = read_gitignore self (Some text)).
Proof.
  split.
  - intros p Hin. cbn [read_gitignore ignored_patterns] in Hin.
    apply in_map_iff in Hin as [line [<- Hin]].
    apply filter_In in Hin as [_ Hf]. apply andb_true_iff in Hf as [Hne Hc].
    apply negb_true_iff in Hne, Hc.
    assert (Hne' : strip line <> []).
    { intros He. rewrite He in Hne. discriminate. }
    destruct (strip_ends line Hne') as [[c [r [Hs Hsp]]] Hlast].
    split; [|exact Hlast]. exists c, r. repeat split; auto.
    intros ->. rewrite Hs in Hc. discriminate.
  - intros Hn. cbn [read_gitignore].
    rewrite universal_newlines_crlf by exact Hn.
    rewrite (universal_newlines_no_cr text Hn). reflexivity.
Qed.

(** ** What the cleanup keeps *)

Lemma sub_newlines_visible (text : str) :
  (forall in_match,
      filter visible (sub_newlines in_match text) = filter visible text)
  /\ List.length (sub_newlines true text) + leading_newlines text
     <= List.length text
  /\ List.length (sub_newlines false text) <= List.length text.
Proof.
  induction text as [|c rest [IHv [IHt IHf]]]; [repeat split; auto; intros []; reflexivity|].
  assert (Hnl : (c =? nl)%N = true -> visible c = false).
  { intros H. unfold visible. rewrite H. reflexivity. }
  split; [|split].
  - intros in_match. cbn [sub_newlines]. destruct in_match.
    + destruct (c =? nl)%N eqn:Hc; cbn [filter].
      * rewrite (Hnl eq_refl). apply IHv.
      * rewrite IHv. reflexivity.
    + destruct ((c =? nl)%N && startswith rest [nl; nl]) eqn:Hc.
      * apply andb_true_iff in Hc as [Hc _]. cbn [filter].
        rewrite (Hnl Hc). change (visible nl) with false. cbn iota.
        apply IHv.
      * cbn [filter]. rewrite IHv. reflexivity.
  - cbn [sub_newlines leading_newlines]. destruct (c =? nl)%N;
      cbn [List.length]; lia.
  - cbn [sub_newlines].
    destruct ((c =? nl)%N && startswith rest [nl; nl]) eqn:Hc.
    + apply andb_true_iff in Hc as [_ Hs]. rewrite startswith_two in Hs.
      apply Nat.leb_le in Hs. cbn [List.length]. lia.
    + cbn [List.length]. lia.
Qed.

Lemma universal_newlines_visible_bounded (n : nat) :
  forall text, List.length text <= n ->
  filter visible (universal_newlines text) = filter visible text
  /\ List.length (universal_newlines text) <= List.length text.
Proof.
  induction n as [|n IH]; intros [|c rest] Hlen; simpl in Hlen;
    try (split; [reflexivity | simpl; lia]); try lia.
  cbn [universal_newlines]. destruct (N.eqb_spec c cr) as [->|Hc].
  - destruct rest as [|c' rest']; [split; [reflexivity | simpl; lia]|].
    destruct (N.eqb_spec c' nl) as [->|Hn].
    + destruct (IH rest') as [H1 H2]; [simpl in Hlen; lia|].
      split; [simpl; exact H1 | simpl; lia].
    + destruct (IH (c' :: rest')) as [H1 H2]; [simpl in Hlen |- *; lia|].
      split; [|simpl in H2 |- *; lia].
      change (filter visible (nl :: universal_newlines (c' :: rest')))
        with (filter visible (universal_newlines (c' :: rest'))).
      rewrite H1. reflexivity.
  - destruct (IH rest) as [H1 H2]; [lia|].
    cbn [filter List.length]. rewrite H1. split; [reflexivity | lia].
Qed.

(** X12. The cleanup takes away newlines and carriage returns only: what it
    leaves in the output file has the other characters of the file, all of
    them and in their order, is not longer than the file was, and nothing
    is printed. *)
Theorem clean_up_text_keeps_visible_text (w w' : world) (text : str) :
  output_file w = Some text ->
  clean_up_text w = Some w' ->
  exists cleaned,
    output_file w' = Some cleaned
    /\ filter visible cleaned = filter visible text
    /\ List.length cleaned <= List.length text
    /\ stdout w' = stdout w.
Proof.
  intros Hw H. unfold clean_up_text in H. rewrite Hw in H. cbn [bind] in H.
  injection H as <-. eexists. split; [reflexivity|]. cbn [stdout].
  destruct (sub_newlines_visible (universal_newlines text)) as [H1 [_ H2]].
  destruct (universal_newlines_visible_bounded (n := List.length text) text
              (le_n _)) as [H3 H4].
  rewrite H1, H3. repeat split. lia.
Qed.

(** ** More on the decoder *)

Lemma decoded_length (c : N) (m : option str) (text : str) (k : nat) :
  decoded c m = Some text ->
  (forall t, m = Some t -> List.length t <= k) ->
  List.length text <= S k.
Proof.
  destruct m as [t|]; simpl; [|discriminate].
  intros H Hk. injection H as <-. simpl. specialize (Hk t eq_refl). lia.
Qed.

Lemma utf8_decode_length_bounded (n : nat) :
  forall bs, List.length bs <= n ->
  forall text, utf8_decode Replace bs = Some text ->
  List.length text <= List.length bs.
Proof.
  induction n as [|n IH]; intros bs Hlen text.
  - destruct bs; [|simpl in Hlen; lia]. intros H. injection H as <-. auto.
  - destruct bs as [|b0 r0]; [intros H; injection H as <-; auto|].
    cbn [utf8_decode]. cbv zeta. unfold undecodable. decoder_cases;
      intros H; cbn [List.length] in Hlen |- *;
      (eapply Nat.le_trans;
       [eapply decoded_length;
        [exact H
        |first [ intros t Ht; eapply IH; [|exact Ht]; cbn [List.length]; lia
               | intros t Ht; injection Ht as <-; apply le_n ]]
       |cbn [List.length]; lia]).
Qed.

Lemma utf8_decode_ascii (errors : errors_mode) (bs : list byte) :
  Forall (fun b => (Byte.to_N b < 128)%N) bs ->
  utf8_decode errors bs = Some (map Byte.to_N bs).
Proof.
  induction 1 as [|b bs Hb _ IH]; [reflexivity|].
  cbn [utf8_decode]. cbv zeta. apply N.ltb_lt in Hb. rewrite Hb, IH.
  reflexivity.
Qed.

(** ** The regex of a pattern *)

(** X15. In the regex made from a pattern every star stands right after a
    dot, so that it always has something to repeat and reads "any run of
    characters"; a pattern without a star is the regex as it is. *)
Theorem replace_star_puts_dot_before_star (pattern : str) :
  (forall pre post,
      replace_star pattern = pre ++ star :: post ->
      exists pre', pre = pre' ++ [dot])
  /\ (~ In star pattern -> replace_star pattern = pattern).
Proof.
  split.
  - induction pattern as [|c rest IH]; intros pre post H.
    + destruct pre; discriminate.
    + cbn [replace_star flat_map] in H. fold (replace_star rest) in H.
      destruct (N.eqb_spec c star) as [->|Hc].
      * destruct pre as [|x [|y pre]]; cbn [app] in H.
        -- discriminate.
        -- injection H as <- _. exists []. reflexivity.
        -- injection H as <- <- H. destruct (IH _ _ H) as [q ->].
           exists (dot :: star :: q). reflexivity.
      * destruct pre as [|x pre]; cbn [app] in H.
        -- injection H as H _. congruence.
        -- injection H as <- H. destruct (IH _ _ H) as [q ->].
           exists (c :: q). reflexivity.
  - induction pattern as [|c rest IH]; intros H; [reflexivity|].
    cbn [replace_star flat_map]. fold (replace_star rest).
    destruct (N.eqb_spec c star) as [->|Hc].
    + exfalso. apply H. left. reflexivity.
    + cbn [app]. rewrite IH; [reflexivity|].
      intros Hin. apply H. right. exact Hin.
Qed.

(** ** The cleanup and the text of a line *)

Lemma sub_newlines_after (pre rest : str) :
  forall in_match, exists out in_match',
    sub_newlines in_match (pre ++ rest) = out ++ sub_newlines in_match' rest.
Proof.
  induction pre as [|c pre IH]; intros in_match.
  - exists [], in_match. reflexivity.
  - cbn [app sub_newlines].
    destruct (IH true) as [out1 [b1 H1]]. destruct (IH false) as [out2 [b2 H2]].
    destruct in_match.
    + destruct (c =? nl)%N.
      * exists out1, b1. exact H1.
      * exists (c :: out2), b2. rewrite H2. reflexivity.
    + destruct ((c =? nl)%N && startswith (pre ++ rest) [nl; nl]).
      * exists (nl :: nl :: out1), b1. rewrite H1. reflexivity.
      * exists (c :: out2), b2. rewrite H2. reflexivity.
Qed.

Lemma sub_newlines_line (line post : str) :
  line <> [] -> (forall c, In c line -> visible c = true) ->
  forall in_match,
  sub_newlines in_match (line ++ post) = line ++ sub_newlines false post.
Proof.
  induction line as [|c line IH]; intros Hne Hv in_match; [contradiction|].
  assert (Hc : (c =? nl)%N = false).
  { specialize (Hv c (or_introl eq_refl)). unfold visible in Hv.
    apply andb_true_iff in Hv as [Hv _]. apply negb_true_iff in Hv. exact Hv. }
  cbn [app sub_newlines]. rewrite Hc. cbn [andb].
  assert (Hrest : sub_newlines false (line ++ post)
                  = line ++ sub_newlines false post).
  { destruct line as [|c' line']; [reflexivity|].
    apply IH; [discriminate|]. intros x Hx. apply Hv. right. exact Hx. }
  destruct in_match; rewrite Hrest; reflexivity.
Qed.

Lemma universal_newlines_after_bounded (n : nat) :
  forall pre rest, List.length pre <= n ->
  (rest = [] \/ exists c r, rest = c :: r /\ c <> nl) ->
  exists out, universal_newlines (pre ++ rest) = out ++ universal_newlines rest.
Proof.
  induction n as [|n IH]; intros pre rest Hlen Hrest.
  - destruct pre; [exists []; reflexivity | simpl in Hlen; lia].
  - destruct pre as [|c pre]; [exists []; reflexivity|].
    simpl in Hlen. cbn [app universal_newlines].
    destruct (c =? cr)%N.
    + destruct pre as [|c' pre'].
      * cbn [app]. destruct Hrest as [-> | [c' [r [-> Hc']]]].
        -- exists [nl]. reflexivity.
        -- apply N.eqb_neq in Hc'. rewrite Hc'. exists [nl]. reflexivity.
      * cbn [app]. destruct (c' =? nl)%N.
        -- destruct (IH pre' rest) as [out H]; [simpl in Hlen; lia | exact Hrest|].
           exists (nl :: out). rewrite H. reflexivity.
        -- destruct (IH (c' :: pre') rest) as [out H]; [lia | exact Hrest|].
           exists (nl :: out). cbn [app] in H. rewrite H. reflexivity.
    + destruct (IH pre rest) as [out H]; [lia | exact Hrest|].
      exists (c :: out). rewrite H. reflexivity.
Qed.

Lemma universal_newlines_line (line post : str) :
  (forall c, In c line -> visible c = true) ->
  universal_newlines (line ++ post) = line ++ universal_newlines post.
Proof.
  induction line as [|c line IH]; intros Hv; [reflexivity|].
  assert (Hc : (c =? cr)%N = false).
  { specialize (Hv c (or_introl eq_refl)). unfold visible in Hv.
    apply andb_true_iff in Hv as [_ Hv]. apply negb_true_iff in Hv. exact Hv. }
  cbn [app universal_newlines]. rewrite Hc, IH; [reflexivity|].
  intros x Hx. apply Hv. right. exact Hx.
Qed.

(** X16. The cleanup breaks no line: a piece of text without newline and
    carriage return that stands in the output file before the cleanup (a
    heading, a fence, a line of the tree or of a file) stands in it
    after. *)
Theorem clean_up_text_keeps_lines (w w' : world) (text : str) :
  output_file w = Some text ->
  clean_up_text w = Some w' ->
  exists cleaned,
    output_file w' = Some cleaned
    /\ forall line,
         (forall c, In c line -> visible c = true) ->
         infix_of line text -> infix_of line cleaned.
Proof.
  intros Hw H. unfold clean_up_text in H. rewrite Hw in H. cbn [bind] in H.
  injection H as <-. eexists. split; [reflexivity|].
  intros line Hv [pre [post ->]].
  destruct line as [|c line]; [exists [], (sub_newlines false
                                           (universal_newlines (pre ++ post)));
                               reflexivity|].
  assert (Hc : c <> nl).
  { intros ->. specialize (Hv nl (or_introl eq_refl)). discriminate. }
  assert (Hu : exists out,
             universal_newlines (pre ++ (c :: line) ++ post)
             = out ++ universal_newlines ((c :: line) ++ post)).
  { apply universal_newlines_after_bounded with (n := List.length pre);
      [apply le_n|].
    right. exists c, (line ++ post). auto. }
  destruct Hu as [out1 H1].
  rewrite H1, universal_newlines_line by exact Hv.
  destruct (sub_newlines_after out1
              ((c :: line) ++ universal_newlines post) false)
    as [out2 [b H2]].
  rewrite H2, sub_newlines_line by (discriminate || exact Hv).
  exists out2, (sub_newlines false (universal_newlines post)). reflexivity.
Qed.

Section Properties.

Variable re_fullmatch : str -> str -> option bool.
Variable md_convert : list str -> convert_result.

Lemma last_snoc (root_path : list str) (file : str) :
  last (root_path ++ [file]) [] = file.
Proof. apply last_last. Qed.



(** ** C5: writing the output file *)

Lemma utf8_encodable_app (a b : str) :
  utf8_encodable (a ++ b) = utf8_encodable a && utf8_encodable b.
Proof. apply forallb_app. Qed.

Lemma f_write_all_text (files_data : list str) :
  forall f,
  f_write_all f files_data
  = if utf8_encodable (List.concat files_data)
    then Some (f ++ List.concat files_data) else None.
Proof.
  induction files_data as [|file_data rest IH]; intros f; cbn [f_write_all].
  - cbn. rewrite app_nil_r. reflexivity.
  - cbn [List.concat]. rewrite utf8_encodable_app. unfold f_write.
    destruct (utf8_encodable file_data); cbn [bind andb]; [|reflexivity].
    rewrite IH, <- app_assoc. reflexivity.
Qed.

Lemma utf8_encodable_fence (text : str) :
  utf8_encodable (lit "```" ++ [nl] ++ text ++ [nl] ++ lit "```")
  = utf8_encodable text.
Proof.
  rewrite !utf8_encodable_app.
  change (utf8_encodable (lit "```")) with true.
  change (utf8_encodable [nl]) with true.
  destruct (utf8_encodable text); reflexivity.
Qed.

Lemma utf8_encodable_output_text (self : Path2File) (tree : node)
    (files_data : list str) :
  utf8_encodable (output_text self tree files_data)
  = utf8_encodable (map_directory_structure self tree)
    && utf8_encodable (List.concat files_data).
Proof.
  unfold output_text. rewrite !utf8_encodable_app.
  change (utf8_encodable (lit "# Folder Structure")) with true.
  change (utf8_encodable (lit "```")) with true.
  change (utf8_encodable [nl]) with true.
  destruct files_data as [|section rest].
  - cbn [List.concat]. change (utf8_encodable []) with true.
    destruct (utf8_encodable (map_directory_structure self tree));
      reflexivity.
  - rewrite !utf8_encodable_app.
    change (utf8_encodable [nl; nl]) with true.
    change (utf8_encodable (lit "# File Contents")) with true.
    change (utf8_encodable [nl]) with true.
    destruct (utf8_encodable (map_directory_structure self tree)),
      (utf8_encodable (List.concat (section :: rest))); reflexivity.
Qed.

(** What [write_to_file] does when there is something to write. *)
Lemma write_to_file_text (self : Path2File) (tree : node)
    (files_data : list str) (w : world) :
  py_not files_data && negb (map_only self) = false ->
  write_to_file self tree files_data w
  = if utf8_encodable (output_text self tree files_data)
    then Some ({| output_file := Some (output_text self tree files_data);
                  stdout := stdout w |}, true)
    else None.
Proof.
  intros Hc. rewrite utf8_encodable_output_text.
  unfold write_to_file, output_text. rewrite Hc.
  change (f_write [] (lit "# Folder Structure" ++ [nl]))
    with (Some (lit "# Folder Structure" ++ [nl])).
  cbn [bind]. unfold f_write at 1. rewrite utf8_encodable_fence.
  destruct (utf8_encodable (map_directory_structure self tree));
    cbn [andb bind]; [|reflexivity].
  destruct files_data as [|section rest]; cbn [py_not bind].
  - change (utf8_encodable (List.concat [])) with true. cbv iota.
    rewrite <- !app_assoc, app_nil_r. reflexivity.
  - change (f_write ?f ([nl; nl] ++ lit "# File Contents" ++ [nl]))
      with (Some (f ++ [nl; nl] ++ lit "# File Contents" ++ [nl])).
    cbn [bind]. rewrite f_write_all_text.
    destruct (utf8_encodable (List.concat (section :: rest)));
      cbn [bind]; [|reflexivity].
    rewrite <- !app_assoc. reflexivity.
Qed.



(** ** C9: no three newlines after the cleanup *)

Lemma no_three_newlines_no_copy (text : str) :
  has_three_newlines text = false ->
  ~ infix_of [nl; nl; nl] text
  /\ (forall content, infix_of [nl; nl; nl] content -> ~ infix_of content text).
Proof.
  intros H.
  assert (Hn : ~ infix_of [nl; nl; nl] text).
  { intros Hi. apply has_three_newlines_infix in Hi. congruence. }
  split; [exact Hn|]. intros c Hc Hi. apply Hn.
  apply infix_of_trans with (b := c); assumption.
Qed.

(** C9. When a run has written and cleaned the output file, the file holds
    no three newlines in a row anywhere; so a text with three newlines in a
    row, the content of a file for one, occurs nowhere in it as it
    was. *)
Theorem cleaned_output_has_no_three_newlines
    (self : Path2File) (gitignore : option str) (tree tree_w : node)
    (w w' : world) :
  main re_fullmatch md_convert self gitignore tree tree_w w = Some (w', true) ->
  exists text,
    output_file w' = Some text
    /\ has_three_newlines text = false
    /\ ~ infix_of [nl; nl; nl] text
    /\ (forall content,
          infix_of [nl; nl; nl] content -> ~ infix_of content text).
Proof.
  unfold main. intros H.
  destruct (fetch_all_files _ _ _ _ _) as [[self' [files_data printed]]|];
    [|discriminate].
  cbn [bind] in H.
  destruct (write_to_file self' tree_w files_data _) as [[w1 ok]|] eqn:Hw;
    [|discriminate].
  cbn [bind] in H. destruct ok; [|discriminate]. cbn [negb] in H.
  unfold clean_up_text in H. cbn [output_file stdout] in H.
  destruct (output_file w1) as [t|]; [|discriminate].
  cbn [bind output_file stdout] in H. injection H as <-.
  exists (sub_newlines false (universal_newlines t)). cbn [output_file].
  split; [reflexivity|]. split; [apply sub_newlines_no_three|].
  apply no_three_newlines_no_copy, sub_newlines_no_three.
Qed.

(** ** C2 and C10: the patterns of [.gitignore] *)

Lemma any_fullmatch_true (patterns : list str) (s : str) :
  any_fullmatch re_fullmatch patterns s = Some true ->
  exists p, In p patterns /\ re_fullmatch (replace_star p) s = Some true.
Proof.
  induction patterns as [|p rest IH]; simpl; [discriminate|].
  destruct (re_fullmatch (replace_star p) s) as [[|]|] eqn:Hp; simpl;
    try discriminate.
  - intros _. exists p. auto.
  - intros H. destruct (IH H) as [q [Hq Hm]]. exists q. auto.
Qed.

Lemma any_fullmatch_false (patterns : list str) (s : str) :
  any_fullmatch re_fullmatch patterns s = Some false ->
  forall p, In p patterns -> re_fullmatch (replace_star p) s = Some false.
Proof.
  induction patterns as [|p rest IH]; simpl; [intros _ q []|].
  destruct (re_fullmatch (replace_star p) s) as [[|]|] eqn:Hp; simpl;
    try discriminate.
  intros H q [<- | Hq]; [exact Hp | apply IH; assumption].
Qed.

Lemma is_ignored_spec (self : Path2File) (path : list str) (b : bool) :
  is_ignored re_fullmatch self path = Some b ->
  (b = true
   <-> exists p, In p (ignored_patterns self)
         /\ re_fullmatch (replace_star p) (join [slash] path) = Some true).
Proof.
  unfold is_ignored. intros H. destruct b.
  - split; [intros _; apply any_fullmatch_true; exact H | reflexivity].
  - split; [discriminate|]. intros [p [Hp Hm]].
    rewrite (any_fullmatch_false _ _ H p Hp) in Hm. discriminate.
Qed.

Lemma visit_file_ignored (self : Path2File) (root_path : list str)
    (file : str) (data : read_result) (st : fetch_state) :
  is_ignored re_fullmatch self (root_path ++ [file]) = Some true ->
  visit_file re_fullmatch md_convert self root_path file data st
  = Some (fst st, snd st ++ [MsgSkipping (root_path ++ [file])]).
Proof. intros H. unfold visit_file. rewrite H. reflexivity. Qed.

Lemma grows_refl (st : fetch_state) : grows st st.
Proof. intros m H. exact H. Qed.

Lemma grows_trans (st1 st2 st3 : fetch_state) :
  grows st1 st2 -> grows st2 st3 -> grows st1 st3.
Proof. intros H1 H2 m H. apply H2, H1, H. Qed.

Lemma visit_file_grows (self : Path2File) (root_path : list str)
    (file : str) (data : read_result) (st st' : fetch_state) :
  visit_file re_fullmatch md_convert self root_path file data st = Some st' ->
  grows st st'.
Proof.
  unfold visit_file, grows.
  destruct (is_ignored re_fullmatch self (root_path ++ [file])) as [[|]|];
    cbn [bind]; try discriminate.
  - intros H m Hm. injection H as <-. simpl. apply in_or_app. auto.
  - destruct (file_matches_criteria self file).
    + destruct (process_file md_convert self (root_path ++ [file]) data)
        as [[section|] printed].
      * destruct (py_not section); intros H m Hm; injection H as <-; simpl;
          apply in_or_app; auto.
      * intros H m Hm; injection H as <-; simpl; apply in_or_app; auto.
    + intros H m Hm. injection H as <-. exact Hm.
Qed.

Lemma visit_files_prints (self : Path2File) (root_path : list str)
    (entries : list node) :
  forall st st',
  visit_files re_fullmatch md_convert self root_path entries st = Some st' ->
  grows st st'
  /\ (forall file data,
        In (File file data) entries ->
        is_ignored re_fullmatch self (root_path ++ [file]) = Some true ->
        In (MsgSkipping (root_path ++ [file])) (snd st')).
Proof.
  induction entries as [|[file data | name listable sub] rest IH];
    intros st st'; cbn [visit_files].
  - intros H. injection H as <-. split; [apply grows_refl | intros ? ? []].
  - destruct (visit_file re_fullmatch md_convert self root_path file data st)
      as [st1|] eqn:Hv; cbn [bind]; [|discriminate].
    intros H. destruct (IH _ _ H) as [Hg Hs]. split.
    + eapply grows_trans; [eapply visit_file_grows; exact Hv | exact Hg].
    + intros f d [Heq | Hin] Hi.
      * injection Heq as <- <-. apply Hg.
        rewrite (visit_file_ignored self root_path file data st Hi) in Hv.
        injection Hv as <-. simpl. apply in_or_app. right. left. reflexivity.
      * apply Hs with (data := d); assumption.
  - intros H. destruct (IH _ _ H) as [Hg Hs]. split; [exact Hg|].
    intros f d [Heq | Hin] Hi; [discriminate|].
    apply Hs with (data := d); assumption.
Qed.

Lemma filter_directories_kept (self : Path2File) (root_path : list str)
    (directories : list str) :
  forall kept,
  filter_directories re_fullmatch self root_path directories = Some kept ->
  forall dir, In dir directories ->
    keeps_directory re_fullmatch self root_path dir = Some true ->
    str_in dir kept = true.
Proof.
  induction directories as [|d rest IH]; intros kept; cbn [filter_directories];
    [intros _ ? []|].
  destruct (keeps_directory re_fullmatch self root_path d) as [keep|] eqn:Hk;
    cbn [bind]; [|discriminate].
  destruct (filter_directories re_fullmatch self root_path rest)
    as [kept'|]; cbn [bind]; [|discriminate].
  intros H dir [<- | Hin] Hd; injection H as <-.
  - rewrite Hd in Hk. injection Hk as <-. simpl. rewrite str_eqb_refl.
    reflexivity.
  - specialize (IH kept' eq_refl dir Hin Hd).
    destruct keep; [simpl; rewrite IH; apply orb_true_r | exact IH].
Qed.

Lemma walk_prints (self : Path2File) (n : node) :
  forall root_path st st',
  walk re_fullmatch md_convert self n root_path st = Some st' ->
  grows st st'
  /\ (forall path,
        visits re_fullmatch self n root_path path ->
        is_ignored re_fullmatch self path = Some true ->
        In (MsgSkipping path) (snd st')).
Proof.
  induction n as [name data | name listable entries IH] using node_induction;
    intros root_path st st'.
  - cbn [walk]. intros H. injection H as <-.
    split; [apply grows_refl|]. intros path Hv. inversion Hv.
  - destruct listable; cbn [walk].
    2:{ intros H. injection H as <-. split; [apply grows_refl|].
        intros path Hv. inversion Hv. }
    destruct (filter_directories re_fullmatch self root_path (dirnames entries))
      as [kept|] eqn:Hk; cbn [bind]; [|discriminate].
    destruct (visit_files re_fullmatch md_convert self root_path entries st)
      as [st1|] eqn:Hf; cbn [bind]; [|discriminate].
    destruct (visit_files_prints _ _ _ _ Hf) as [Hg1 Hs1].
    assert (Hkept : forall d, In d entries -> is_dir d = true ->
              keeps_directory re_fullmatch self root_path (node_name d)
              = Some true -> str_in (node_name d) kept = true).
    { intros d Hd Hdir Hkeep.
      apply (filter_directories_kept _ _ _ Hk); [|exact Hkeep].
      unfold dirnames. apply in_map. apply filter_In. auto. }
    clear Hk Hf.
    intros Hdesc.
    assert (Hloop : grows st1 st'
              /\ (forall d path, In d entries -> is_dir d = true ->
                    str_in (node_name d) kept = true ->
                    visits re_fullmatch self d (root_path ++ [node_name d])
                      path ->
                    is_ignored re_fullmatch self path = Some true ->
                    In (MsgSkipping path) (snd st'))).
    { clear Hg1 Hs1 Hkept. revert st1 Hdesc.
      induction entries as [|e es IHes]; intros st1 Hdesc.
      - injection Hdesc as <-. split; [apply grows_refl | intros ? ? []].
      - inversion IH as [|? ? IHe IHrest]; subst.
        destruct (if is_dir e && str_in (node_name e) kept
                  then walk re_fullmatch md_convert self e
                         (root_path ++ [node_name e]) st1
                  else Some st1) as [st2|] eqn:He; cbn [bind] in Hdesc;
          [|discriminate].
        destruct (IHes IHrest _ Hdesc) as [Hg2 Hs2].
        assert (Hg12 : grows st1 st2).
        { destruct (is_dir e && str_in (node_name e) kept).
          - apply (IHe _ _ _ He).
          - injection He as <-. apply grows_refl. }
        split; [eapply grows_trans; eassumption|].
        intros d path [<- | Hin] Hdir Hin_kept Hv Hi.
        + rewrite Hdir, Hin_kept in He. cbn [andb] in He.
          apply Hg2. apply (IHe _ _ _ He); assumption.
        + apply Hs2 with (d := d); assumption. }
    destruct Hloop as [Hg2 Hs2]. split; [eapply grows_trans; eassumption|].
    intros path Hv Hi. inversion Hv as [? ? ? file data Hin | ? ? ? d ? Hin Hdir Hkeep Hsub];
      subst.
    + apply Hg2. apply Hs1 with (data := data); assumption.
    + apply Hs2 with (d := d); auto.
Qed.

Lemma read_gitignore_patterns (self : Path2File) (text : str) (p : str) :
  In p (ignored_patterns (read_gitignore self (Some text)))
  <-> exists line,
        In line (readlines [] (universal_newlines text)) /\ p = strip line
        /\ p <> [] /\ startswith p [hash] = false.
Proof.
  cbn [read_gitignore ignored_patterns]. rewrite in_map_iff. split.
  - intros [line [<- Hin]]. apply filter_In in Hin as [Hin Hf].
    apply andb_true_iff in Hf as [Hne Hc].
    apply negb_true_iff in Hne, Hc. exists line. repeat split; auto.
    intros He. rewrite He in Hne. discriminate.
  - intros [line [Hin [-> [Hne Hc]]]]. exists line. split; [reflexivity|].
    apply filter_In. split; [exact Hin|]. rewrite Hc.
    destruct (strip line); [contradiction | reflexivity].
Qed.

(** C2, as the code has it. A path is ignored exactly when, for one of the
    patterns, the regex got from the pattern by writing [.*] for each [*]
    matches the whole of the path relative to the input folder; the
    patterns are the stripped lines of [.gitignore] that are not empty and
    do not start with [#]; when the loop comes to an ignored file it prints
    that the file is skipped and adds nothing to [files_data]; and every
    ignored file that a run comes to (no directory above it was dropped
    from the walk) has its line among the printed ones. *)
Theorem ignored_file_skipped_when_visited :
  (forall self path b,
      is_ignored re_fullmatch self path = Some b ->
      (b = true
       <-> exists p, In p (ignored_patterns self)
             /\ re_fullmatch (replace_star p) (join [slash] path)
                = Some true))
  /\ (forall self text p,
        In p (ignored_patterns (read_gitignore self (Some text)))
        <-> exists line,
              In line (readlines [] (universal_newlines text))
              /\ p = strip line
              /\ p <> [] /\ startswith p [hash] = false)
  /\ (forall self root_path file data st,
        is_ignored re_fullmatch self (root_path ++ [file]) = Some true ->
        visit_file re_fullmatch md_convert self root_path file data st
        = Some (fst st, snd st ++ [MsgSkipping (root_path ++ [file])]))
  /\ (forall self gitignore tree self' st path,
        map_only self = false ->
        fetch_all_files re_fullmatch md_convert self gitignore tree
        = Some (self', st) ->
        visits re_fullmatch self' tree [] path ->
        is_ignored re_fullmatch self' path = Some true ->
        In (MsgSkipping path) (snd st)).
Proof.
  split; [exact is_ignored_spec|].
  split; [exact read_gitignore_patterns|].
  split; [exact visit_file_ignored|].
  intros self gitignore tree self' st path Hm Hf Hv Hi.
  unfold fetch_all_files in Hf. rewrite Hm in Hf.
  destruct (walk re_fullmatch md_convert (read_gitignore self gitignore)
              tree [] ([], [])) as [st0|] eqn:Hw; [|discriminate].
  cbn [bind] in Hf. injection Hf as <- <-.
  apply (walk_prints _ _ _ _ Hw); assumption.
Qed.

Lemma is_ignored_no_patterns (self : Path2File) (path : list str) :
  ignored_patterns self = [] ->
  is_ignored re_fullmatch self path = Some false.
Proof. unfold is_ignored. intros ->. reflexivity. Qed.

Lemma quiet_refl (st : fetch_state) : quiet st st.
Proof. intros p H. exact H. Qed.

Lemma quiet_trans (st1 st2 st3 : fetch_state) :
  quiet st1 st2 -> quiet st2 st3 -> quiet st1 st3.
Proof. intros H1 H2 p H. apply H1, H2, H. Qed.

Lemma process_file_quiet (self : Path2File) (file_path : list str)
    (data : read_result) (path : list str) :
  ~ In (MsgSkipping path) (snd (process_file md_convert self file_path data)).
Proof.
  unfold process_file.
  destruct (existsb _ supported_extensions).
  - destruct (md_convert file_path); simpl; intros [H | []]; discriminate.
  - destruct data as [content | e].
    + destruct (utf8_decode Replace content); simpl; intros [H | []];
        discriminate.
    + simpl; intros [H | []]; discriminate.
Qed.

Lemma visit_file_no_patterns (self : Path2File) (root_path : list str)
    (file : str) (data : read_result) (st : fetch_state) :
  ignored_patterns self = [] ->
  exists st',
    visit_file re_fullmatch md_convert self root_path file data st = Some st'
    /\ quiet st st'.
Proof.
  intros Hp. unfold visit_file. rewrite is_ignored_no_patterns by exact Hp.
  cbn [bind]. destruct (file_matches_criteria self file);
    [|exists st; split; [reflexivity | apply quiet_refl]].
  pose proof (process_file_quiet self (root_path ++ [file]) data) as Hq.
  destruct (process_file md_convert self (root_path ++ [file]) data)
    as [file_data printed]. cbn [snd] in Hq.
  assert (Hqq : forall files, quiet st (files, snd st ++ printed)).
  { intros files p H. cbn [snd] in H. apply in_app_or in H as [H | H];
      [exact H | exfalso; apply (Hq p H)]. }
  destruct file_data as [section|]; [destruct (py_not section)|];
    eexists; (split; [reflexivity | apply Hqq]).
Qed.

Lemma visit_files_no_patterns (self : Path2File) (root_path : list str)
    (entries : list node) :
  ignored_patterns self = [] ->
  forall st, exists st',
    visit_files re_fullmatch md_convert self root_path entries st = Some st'
    /\ quiet st st'.
Proof.
  intros Hp. induction entries as [|[file data | name listable sub] rest IH];
    intros st; cbn [visit_files].
  - exists st. split; [reflexivity | apply quiet_refl].
  - destruct (visit_file_no_patterns self root_path file data st Hp)
      as [st1 [-> Hq1]]. cbn [bind].
    destruct (IH st1) as [st' [-> Hq2]]. exists st'.
    split; [reflexivity | eapply quiet_trans; eassumption].
  - apply IH.
Qed.

Lemma filter_directories_no_patterns (self : Path2File)
    (root_path : list str) (directories : list str) :
  ignored_patterns self = [] ->
  filter_directories re_fullmatch self root_path directories
  = Some (filter (fun dir => negb (str_in dir (excluded_folders self)))
            directories).
Proof.
  intros Hp. induction directories as [|dir rest IH]; [reflexivity|].
  cbn [filter_directories filter]. unfold keeps_directory.
  rewrite is_ignored_no_patterns by exact Hp. cbn [bind]. rewrite IH.
  cbn [bind negb andb].
  destruct (negb (str_in dir (excluded_folders self))); reflexivity.
Qed.

Lemma walk_no_patterns (self : Path2File) (n : node) :
  ignored_patterns self = [] ->
  forall root_path st, exists st',
    walk re_fullmatch md_convert self n root_path st = Some st'
    /\ quiet st st'.
Proof.
  intros Hp.
  induction n as [name data | name listable entries IH] using node_induction;
    intros root_path st.
  - exists st. split; [reflexivity | apply quiet_refl].
  - destruct listable; cbn [walk];
      [|exists st; split; [reflexivity | apply quiet_refl]].
    rewrite filter_directories_no_patterns by exact Hp. cbn [bind].
    destruct (visit_files_no_patterns self root_path entries Hp st)
      as [st1 [-> Hq1]]. cbn [bind].
    generalize (filter (fun dir => negb (str_in dir (excluded_folders self)))
                  (dirnames entries)).
    intros kept.
    assert (Hloop : forall st1, exists st',
      (fix descend (es : list node) (st0 : fetch_state) {struct es}
         : option fetch_state :=
         match es with
         | [] => Some st0
         | e :: es' =>
             st'0 <- (if is_dir e && str_in (node_name e) kept
                      then walk re_fullmatch md_convert self e
                             (root_path ++ [node_name e]) st0
                      else Some st0) ;;
             descend es' st'0
         end) entries st1 = Some st' /\ quiet st1 st').
    { clear st st1 Hq1. induction entries as [|e es IHes]; intros st1.
      - exists st1. split; [reflexivity | apply quiet_refl].
      - inversion IH as [|? ? IHe IHrest]; subst.
        assert (He : exists st2,
                  (if is_dir e && str_in (node_name e) kept
                   then walk re_fullmatch md_convert self e
                          (root_path ++ [node_name e]) st1
                   else Some st1) = Some st2 /\ quiet st1 st2).
        { destruct (is_dir e && str_in (node_name e) kept);
            [apply IHe | exists st1; split; [reflexivity | apply quiet_refl]]. }
        destruct He as [st2 [-> Hq2]]. cbn [bind].
        destruct (IHes IHrest st2) as [st' [-> Hq3]]. exists st'.
        split; [reflexivity | eapply quiet_trans; eassumption]. }
    destruct (Hloop st1) as [st' [-> Hq2]]. exists st'.
    split; [reflexivity | eapply quiet_trans; eassumption].
Qed.

(** C10. With no [.gitignore] in the input folder the list of patterns
    stays empty, [_is_ignored] answers false for every path, the
    directories are filtered by the excluded folder names alone, and the
    run of [fetch_all_files] ends without a line about a skipped file. *)
Theorem no_gitignore_nothing_ignored
    (folder out : str) (included excluded folders : list str) (m : bool)
    (tree : node) :
  let self0 := init folder out included excluded folders m in
  let self := read_gitignore self0 None in
  ignored_patterns self = []
  /\ (forall path, is_ignored re_fullmatch self path = Some false)
  /\ (forall root_path directories,
        filter_directories re_fullmatch self root_path directories
        = Some (filter (fun dir => negb (str_in dir (excluded_folders self)))
                  directories))
  /\ (forall root_path file data st,
        visit_file re_fullmatch md_convert self root_path file data st
        = if file_matches_criteria self file then
            let (file_data, printed) :=
              process_file md_convert self (root_path ++ [file]) data in
            match file_data with
            | Some section =>
                if py_not section then Some (fst st, snd st ++ printed)
                else Some (fst st ++ [section], snd st ++ printed)
            | None => Some (fst st, snd st ++ printed)
            end
          else Some st)
  /\ (exists st,
        fetch_all_files re_fullmatch md_convert self0 None tree
        = Some (self, st)
        /\ forall path, ~ In (MsgSkipping path) (snd st)).
Proof.
  intros self0 self.
  assert (Hp : ignored_patterns self = []) by reflexivity.
  split; [exact Hp|].
  split; [intros path; apply is_ignored_no_patterns; exact Hp|].
  split; [intros; apply filter_directories_no_patterns; exact Hp|].
  split.
  - intros root_path file data st. unfold visit_file.
    rewrite is_ignored_no_patterns by exact Hp. reflexivity.
  - unfold fetch_all_files. destruct (map_only self0) eqn:Hm.
    + exists ([], []). split; [reflexivity | intros path []].
    + destruct (walk_no_patterns self tree Hp [] ([], [])) as [st [Hw Hq]].
      fold self. rewrite Hw. exists st. split; [reflexivity|].
      intros path H. apply (Hq path H).
Qed.

(** * Further properties of the walk *)

Lemma walk_unfold (self : Path2File) (name : str) (entries : list node)
    (root_path : list str) (st : fetch_state) :
  walk re_fullmatch md_convert self (Dir name true entries) root_path st
  = (directories <- filter_directories re_fullmatch self root_path
                      (dirnames entries) ;;
     st1 <- visit_files re_fullmatch md_convert self root_path entries st ;;
     descend (walk re_fullmatch md_convert self) directories root_path
       entries st1).
Proof. reflexivity. Qed.

Lemma file_section_not_empty (relative_path : list str)
    (file_extension file_content : str) :
  py_not (file_section relative_path file_extension file_content) = false.
Proof. reflexivity. Qed.

(** What [_process_file] can give. *)
Lemma process_file_outcome (self : Path2File) (file_path : list str)
    (data : read_result) :
  (exists file_content,
      process_file md_convert self file_path data
      = (Some (file_section file_path (suffix (last file_path []))
                 file_content),
         [MsgProcessed file_path (st_size data)]))
  \/ (exists e,
        process_file md_convert self file_path data
        = (None, [MsgError file_path e])).
Proof.
  unfold process_file.
  destruct (existsb _ supported_extensions).
  - destruct (md_convert file_path) as [text | e];
      [left; exists text | right; exists e]; reflexivity.
  - destruct data as [content | e]; [|right; exists e; reflexivity].
    destruct (utf8_decode Replace content) as [text|];
      [left; exists text | right; eexists]; reflexivity.
Qed.

(** What the loop body does to the state for one file. *)
Lemma visit_file_effect (self : Path2File) (root_path : list str)
    (file : str) (data : read_result) (st st' : fetch_state) :
  visit_file re_fullmatch md_convert self root_path file data st = Some st' ->
  let file_path := root_path ++ [file] in
  (is_ignored re_fullmatch self file_path = Some true
   /\ st' = (fst st, snd st ++ [MsgSkipping file_path]))
  \/ (is_ignored re_fullmatch self file_path = Some false
      /\ file_matches_criteria self file = false /\ st' = st)
  \/ (is_ignored re_fullmatch self file_path = Some false
      /\ file_matches_criteria self file = true
      /\ exists section,
           process_file md_convert self file_path data
           = (Some section, [MsgProcessed file_path (st_size data)])
           /\ st' = (fst st ++ [section],
                     snd st ++ [MsgProcessed file_path (st_size data)]))
  \/ (is_ignored re_fullmatch self file_path = Some false
      /\ file_matches_criteria self file = true
      /\ exists e,
           process_file md_convert self file_path data
           = (None, [MsgError file_path e])
           /\ st' = (fst st, snd st ++ [MsgError file_path e])).
Proof.
  intros H file_path. unfold visit_file in H. fold file_path in H.
  destruct (is_ignored re_fullmatch self file_path) as [[|]|] eqn:Hi;
    cbn [bind] in H; [| |discriminate].
  - left. injection H as <-. auto.
  - right. destruct (file_matches_criteria self file) eqn:Hm.
    + right.
      destruct (process_file_outcome self file_path data)
        as [[text Hp] | [e Hp]]; rewrite Hp in H.
      * left. rewrite file_section_not_empty in H. injection H as <-.
        repeat split. eexists. split; [exact Hp | reflexivity].
      * right. injection H as <-. repeat split. exists e. auto.
    + left. injection H as <-. auto.
Qed.

Lemma section_from_ext (self : Path2File)
    (V V' : list str -> read_result -> Prop) (section : str) :
  (forall path data, V path data -> V' path data) ->
  section_from re_fullmatch md_convert self V section ->
  section_from re_fullmatch md_convert self V' section.
Proof.
  intros HV [path [data [Hv H]]]. exists path, data. split; auto.
Qed.

Lemma message_from_ext (self : Path2File)
    (V V' : list str -> read_result -> Prop) (m : message) :
  (forall path data, V path data -> V' path data) ->
  message_from re_fullmatch md_convert self V m ->
  message_from re_fullmatch md_convert self V' m.
Proof.
  intros HV. destruct m; simpl; try tauto;
    intros [data [Hv H]]; exists data; split; auto.
Qed.

Lemma effect_none (self : Path2File)
    (V : list str -> read_result -> Prop) (st : fetch_state) :
  (forall path data, ~ V path data) ->
  effect re_fullmatch md_convert self V st st.
Proof.
  intros HV. exists [], []. rewrite !app_nil_r.
  split; [reflexivity|]. split; [reflexivity|].
  split; [constructor|]. split; [constructor|].
  split; intros path data; intros; exfalso; eapply HV; eassumption.
Qed.

Lemma effect_then (self : Path2File)
    (V1 V2 V : list str -> read_result -> Prop) (st1 st2 st3 : fetch_state) :
  (forall path data, V path data <-> V1 path data \/ V2 path data) ->
  effect re_fullmatch md_convert self V1 st1 st2 ->
  effect re_fullmatch md_convert self V2 st2 st3 ->
  effect re_fullmatch md_convert self V st1 st3.
Proof.
  intros HV [a1 [p1 [Ha1 [Hp1 [Hs1 [Hm1 [Hc1 Hk1]]]]]]]
    [a2 [p2 [Ha2 [Hp2 [Hs2 [Hm2 [Hc2 Hk2]]]]]]].
  exists (a1 ++ a2), (p1 ++ p2).
  rewrite Ha2, Ha1, Hp2, Hp1, <- !app_assoc.
  split; [reflexivity|]. split; [reflexivity|].
  split; [|split; [|split]].
  - apply Forall_app. split.
    + eapply Forall_impl; [|exact Hs1]. intros s.
      apply section_from_ext. intros; apply HV; auto.
    + eapply Forall_impl; [|exact Hs2]. intros s.
      apply section_from_ext. intros; apply HV; auto.
  - apply Forall_app. split.
    + eapply Forall_impl; [|exact Hm1]. intros m.
      apply message_from_ext. intros; apply HV; auto.
    + eapply Forall_impl; [|exact Hm2]. intros m.
      apply message_from_ext. intros; apply HV; auto.
  - intros path data section Hv Hi Hm Hp. apply in_or_app.
    apply HV in Hv as [Hv | Hv]; [left; eapply Hc1 | right; eapply Hc2];
      eassumption.
  - intros path data Hv Hi. apply in_or_app.
    apply HV in Hv as [Hv | Hv]; [left; eapply Hk1 | right; eapply Hk2];
      eassumption.
Qed.

Lemma effect_ext (self : Path2File)
    (V V' : list str -> read_result -> Prop) (st st' : fetch_state) :
  (forall path data, V' path data <-> V path data) ->
  effect re_fullmatch md_convert self V st st' ->
  effect re_fullmatch md_convert self V' st st'.
Proof.
  intros HV H.
  apply effect_then with (V1 := V) (V2 := fun _ _ => False) (st2 := st').
  - intros path data. rewrite HV. tauto.
  - exact H.
  - apply effect_none. auto.
Qed.

Ltac effect_with a p :=
  exists a, p; cbn [fst snd]; rewrite ?app_nil_r;
  split; [reflexivity|]; split; [reflexivity|];
  split; [|split; [|split]].

Lemma visit_file_is_effect (self : Path2File) (root_path : list str)
    (file : str) (data : read_result) (st st' : fetch_state) :
  visit_file re_fullmatch md_convert self root_path file data st = Some st' ->
  effect re_fullmatch md_convert self
    (fun path data' => path = root_path ++ [file] /\ data' = data) st st'.
Proof.
  intros H. apply visit_file_effect in H. cbv zeta in H.
  destruct H as [[Hi ->] | [[Hi [Hm ->]] | [[Hi [Hm [s [Hp ->]]]]
                                            | [Hi [Hm [e [Hp ->]]]]]]].
  - effect_with (@nil str) [MsgSkipping (root_path ++ [file])].
    + constructor.
    + constructor; [|constructor]. exists data. auto.
    + intros path d s [-> ->] Hi'. congruence.
    + intros path d [-> ->] _. left. reflexivity.
  - effect_with (@nil str) (@nil message).
    + constructor.
    + constructor.
    + intros path d s [-> ->] _. rewrite last_snoc. congruence.
    + intros path d [-> ->]. congruence.
  - effect_with [s] [MsgProcessed (root_path ++ [file]) (st_size data)].
    + constructor; [|constructor]. exists (root_path ++ [file]), data.
      rewrite last_snoc, Hp. auto.
    + constructor; [|constructor]. exists data. rewrite last_snoc, Hp.
      repeat split; auto. exists s. reflexivity.
    + intros path d s' [-> ->] _ _. rewrite Hp. cbn [fst].
      intros Heq. injection Heq as <-. left. reflexivity.
    + intros path d [-> ->]. congruence.
  - effect_with (@nil str) [MsgError (root_path ++ [file]) e].
    + constructor.
    + constructor; [|constructor]. exists data. rewrite last_snoc. auto.
    + intros path d s' [-> ->] _ _. rewrite Hp. discriminate.
    + intros path d [-> ->]. congruence.
Qed.

Lemma visit_files_is_effect (self : Path2File) (root_path : list str)
    (entries : list node) :
  forall st st',
  visit_files re_fullmatch md_convert self root_path entries st = Some st' ->
  effect re_fullmatch md_convert self
    (fun path data =>
       exists file, path = root_path ++ [file] /\ In (File file data) entries)
    st st'.
Proof.
  induction entries as [|[file data | name listable sub] rest IH];
    intros st st'; cbn [visit_files].
  - intros H. injection H as <-. apply effect_none.
    intros path data [file [_ []]].
  - destruct (visit_file re_fullmatch md_convert self root_path file data st)
      as [st1|] eqn:Hv; cbn [bind]; [|discriminate].
    intros H.
    eapply effect_then;
      [|apply visit_file_is_effect; exact Hv | apply IH; exact H].
    intros path d. split.
    + intros [f [-> [Heq | Hin]]].
      * injection Heq as <- <-. left. auto.
      * right. exists f. auto.
    + intros [[-> ->] | [f [-> Hin]]]; [exists file | exists f];
        split; auto; [left | right]; auto.
  - intros H. eapply effect_ext; [|apply IH; exact H].
    intros path d. split; intros [f [-> Hin]]; exists f; split; auto.
    + destruct Hin as [Heq | Hin]; [discriminate | exact Hin].
    + right. exact Hin.
Qed.

Lemma filter_directories_only_kept (self : Path2File) (root_path : list str)
    (directories : list str) :
  forall kept,
  filter_directories re_fullmatch self root_path directories = Some kept ->
  forall dir, str_in dir kept = true ->
    keeps_directory re_fullmatch self root_path dir = Some true.
Proof.
  induction directories as [|d rest IH]; intros kept; cbn [filter_directories].
  - intros H. injection H as <-. discriminate.
  - destruct (keeps_directory re_fullmatch self root_path d) as [keep|] eqn:Hk;
      cbn [bind]; [|discriminate].
    destruct (filter_directories re_fullmatch self root_path rest)
      as [kept'|]; cbn [bind]; [|discriminate].
    intros H dir Hin. injection H as <-. destruct keep; [|eauto].
    cbn [str_in existsb] in Hin. apply orb_true_iff in Hin as [Heq | Hin].
    + apply str_eqb_eq in Heq. subst. exact Hk.
    + eapply IH; [reflexivity | exact Hin].
Qed.

Lemma descend_is_effect (self : Path2File) (kept : list str)
    (root_path : list str) (es : list node) :
  Forall (fun e => forall root st st',
            walk re_fullmatch md_convert self e root st = Some st' ->
            effect re_fullmatch md_convert self
              (visits_with re_fullmatch self e root) st st') es ->
  forall st st',
  descend (walk re_fullmatch md_convert self) kept root_path es st = Some st' ->
  effect re_fullmatch md_convert self
    (fun path data =>
       exists d, In d es /\ is_dir d = true
         /\ str_in (node_name d) kept = true
         /\ visits_with re_fullmatch self d (root_path ++ [node_name d])
              path data) st st'.
Proof.
  induction es as [|e es IHes]; intros HF st st'; cbn [descend].
  - intros H. injection H as <-. apply effect_none.
    intros path data [d [[] _]].
  - inversion HF as [|? ? He Hrest]; subst.
    destruct (is_dir e && str_in (node_name e) kept) eqn:Hc.
    + destruct (walk re_fullmatch md_convert self e
                  (root_path ++ [node_name e]) st) as [st2|] eqn:Hw;
        cbn [bind]; [|discriminate].
      intros H. apply andb_true_iff in Hc as [Hd Hk].
      eapply effect_then; [|apply He; exact Hw | apply IHes; eassumption].
      intros path data. split.
      * intros [d [[<- | Hin] [Hd' [Hk' Hv]]]]; [left; exact Hv|].
        right. exists d. auto.
      * intros [Hv | [d [Hin [Hd' [Hk' Hv]]]]].
        -- exists e. split; [left; reflexivity | auto].
        -- exists d. split; [right; exact Hin | auto].
    + cbn [bind]. intros H.
      eapply effect_ext; [|apply IHes; eassumption].
      intros path data. split.
      * intros [d [[<- | Hin] [Hd' [Hk' Hv]]]].
        -- rewrite Hd', Hk' in Hc. discriminate.
        -- exists d. auto.
      * intros [d [Hin H']]. exists d. split; [right; exact Hin | exact H'].
Qed.

Lemma walk_is_effect (self : Path2File) (n : node) :
  forall root_path st st',
  walk re_fullmatch md_convert self n root_path st = Some st' ->
  effect re_fullmatch md_convert self
    (visits_with re_fullmatch self n root_path) st st'.
Proof.
  induction n as [name data | name listable entries IH] using node_induction;
    intros root_path st st'.
  - cbn [walk]. intros H. injection H as <-. apply effect_none.
    intros path d Hv. inversion Hv.
  - destruct listable.
    2:{ cbn [walk]. intros H. injection H as <-. apply effect_none.
        intros path d Hv. inversion Hv. }
    rewrite walk_unfold.
    destruct (filter_directories re_fullmatch self root_path (dirnames entries))
      as [kept|] eqn:Hk; cbn [bind]; [|discriminate].
    destruct (visit_files re_fullmatch md_convert self root_path entries st)
      as [st1|] eqn:Hf; cbn [bind]; [|discriminate].
    intros Hd.
    eapply effect_then;
      [|apply visit_files_is_effect; exact Hf
       |eapply descend_is_effect; eassumption].
    intros path data. split.
    + intros Hv.
      inversion Hv as [? ? ? file ? Hin | ? ? ? d ? ? Hin Hdir Hkeep Hsub];
        subst.
      * left. exists file. auto.
      * right. exists d. repeat split; auto.
        apply (filter_directories_kept _ _ _ Hk); [|exact Hkeep].
        unfold dirnames. apply in_map. apply filter_In. auto.
    + intros [[file [-> Hin]] | [d [Hin [Hdir [Hkept Hv]]]]].
      * apply visits_with_file. exact Hin.
      * apply visits_with_below with (d := d); auto.
        apply (filter_directories_only_kept _ _ _ Hk). exact Hkept.
Qed.

Lemma fetch_all_files_is_effect (self self' : Path2File)
    (gitignore : option str) (tree : node) (st : fetch_state) :
  map_only self = false ->
  fetch_all_files re_fullmatch md_convert self gitignore tree
  = Some (self', st) ->
  self' = read_gitignore self gitignore
  /\ effect re_fullmatch md_convert self'
       (visits_with re_fullmatch self' tree []) ([], []) st.
Proof.
  intros Hm H. unfold fetch_all_files in H. rewrite Hm in H.
  destruct (walk re_fullmatch md_convert (read_gitignore self gitignore)
              tree [] ([], [])) as [st0|] eqn:Hw; [|discriminate].
  cbn [bind] in H. injection H as <- <-. split; [reflexivity|].
  apply walk_is_effect. exact Hw.
Qed.

(** X1. The sections that [fetch_all_files] returns are exactly the
    sections [_process_file] gives for the files the walk comes to that
    are not ignored and pass the extension filter: nothing else is in the
    list, and none of them is missing. *)
Theorem fetch_all_files_sections (self self' : Path2File)
    (gitignore : option str) (tree : node) (files_data : list str)
    (printed : list message) :
  map_only self = false ->
  fetch_all_files re_fullmatch md_convert self gitignore tree
  = Some (self', (files_data, printed)) ->
  forall section,
    In section files_data
    <-> exists path data,
          visits_with re_fullmatch self' tree [] path data
          /\ is_ignored re_fullmatch self' path = Some false
          /\ file_matches_criteria self' (last path []) = true
          /\ fst (process_file md_convert self' path data) = Some section.
Proof.
  intros Hm H. destruct (fetch_all_files_is_effect _ _ _ Hm H) as [_ He].
  destruct He as [added [out [Ha [_ [Hs [_ [Hc _]]]]]]].
  cbn [fst app] in Ha. subst added. intros section. split.
  - intros Hin. rewrite Forall_forall in Hs. apply (Hs section Hin).
  - intros [path [data [Hv [Hi [Hmatch Hp]]]]]. eapply Hc; eassumption.
Qed.

(** X2. Every line that [fetch_all_files] prints is about a file the walk
    came to: a skip line for an ignored file, a line with the size for a
    file that gave a section, an error line for a file whose reading or
    conversion failed; and a path has a skip line exactly when the walk
    came to it and it is ignored. *)
Theorem fetch_all_files_prints (self self' : Path2File)
    (gitignore : option str) (tree : node) (files_data : list str)
    (printed : list message) :
  map_only self = false ->
  fetch_all_files re_fullmatch md_convert self gitignore tree
  = Some (self', (files_data, printed)) ->
  (forall m, In m printed ->
     message_from re_fullmatch md_convert self'
       (visits_with re_fullmatch self' tree []) m)
  /\ (forall path,
        In (MsgSkipping path) printed
        <-> exists data,
              visits_with re_fullmatch self' tree [] path data
              /\ is_ignored re_fullmatch self' path = Some true).
Proof.
  intros Hm H. destruct (fetch_all_files_is_effect _ _ _ Hm H) as [_ He].
  destruct He as [added [out [_ [Hp [_ [Hmsg [_ Hk]]]]]]].
  cbn [snd app] in Hp. subst out. rewrite Forall_forall in Hmsg.
  split; [exact Hmsg|]. intros path. split.
  - intros Hin. apply (Hmsg _ Hin).
  - intros [data [Hv Hi]]. eapply Hk; eassumption.
Qed.

Lemma keeps_directory_true (self : Path2File) (root_path : list str)
    (dir : str) :
  keeps_directory re_fullmatch self root_path dir = Some true ->
  str_in dir (excluded_folders self) = false
  /\ is_ignored re_fullmatch self (root_path ++ [dir]) = Some false.
Proof.
  unfold keeps_directory.
  destruct (is_ignored re_fullmatch self (root_path ++ [dir])) as [[|]|];
    cbn [bind negb andb]; try discriminate.
  intros H. injection H as H. apply negb_true_iff in H. auto.
Qed.

Lemma visits_with_path (self : Path2File) (n : node) (root_path path : list str)
    (data : read_result) :
  visits_with re_fullmatch self n root_path path data ->
  exists dirs file,
    path = root_path ++ dirs ++ [file]
    /\ forall pre d post,
         dirs = pre ++ d :: post ->
         keeps_directory re_fullmatch self (root_path ++ pre) d = Some true.
Proof.
  induction 1 as [name entries root_path file data Hin
                 | name entries root_path d path data Hin Hdir Hkeep Hv IH].
  - exists [], file. split; [reflexivity|].
    intros [|? ?] ? ? H; discriminate.
  - destruct IH as [dirs [file [-> Hdirs]]].
    exists (node_name d :: dirs), file. split.
    + rewrite <- app_assoc. reflexivity.
    + intros [|x pre] d0 post Heq.
      * injection Heq as <- <-. rewrite app_nil_r. exact Hkeep.
      * injection Heq as <- Heq. specialize (Hdirs pre d0 post Heq).
        rewrite <- app_assoc in Hdirs. exact Hdirs.
Qed.

Lemma visits_with_reached (self : Path2File) (tree : node) (path : list str)
    (data : read_result) :
  visits_with re_fullmatch self tree [] path data ->
  reached_through_kept re_fullmatch self path.
Proof.
  intros Hv. destruct (visits_with_path Hv) as [dirs [file [-> Hdirs]]].
  exists dirs, file. split; [reflexivity|].
  intros pre d post Heq. apply keeps_directory_true with (root_path := pre).
  apply (Hdirs pre d post Heq).
Qed.

(** X3. The walk never goes below an excluded folder or an ignored
    directory: whatever [fetch_all_files] prints a line about, and whatever
    it returns a section for, is a file with no excluded folder name and no
    ignored directory on the way to it. *)
Theorem fetch_all_files_stays_out_of_excluded (self self' : Path2File)
    (gitignore : option str) (tree : node) (files_data : list str)
    (printed : list message) :
  map_only self = false ->
  fetch_all_files re_fullmatch md_convert self gitignore tree
  = Some (self', (files_data, printed)) ->
  (forall m path,
      In m printed -> message_path m = Some path ->
      reached_through_kept re_fullmatch self' path)
  /\ (forall section,
        In section files_data ->
        exists path data,
          fst (process_file md_convert self' path data) = Some section
          /\ reached_through_kept re_fullmatch self' path).
Proof.
  intros Hm H. destruct (fetch_all_files_is_effect _ _ _ Hm H) as [_ He].
  destruct He as [added [out [Ha [Hp [Hs [Hmsg _]]]]]].
  cbn [fst snd app] in Ha, Hp. subst added out.
  rewrite Forall_forall in Hs, Hmsg. split.
  - intros m path Hin Hpath. specialize (Hmsg m Hin).
    destruct m; simpl in Hpath, Hmsg; try discriminate;
      injection Hpath as ->; destruct Hmsg as [data [Hv _]];
      eapply visits_with_reached; exact Hv.
  - intros section Hin.
    destruct (Hs section Hin) as [path [data [Hv [_ [_ Hsec]]]]].
    exists path, data. split; [exact Hsec|].
    eapply visits_with_reached; exact Hv.
Qed.

(** *** When the run fails *)









(** X5. A first line of [.gitignore] that is no regex ends the run with the
    exception of [re]: as soon as the input folder has an entry,
    [fetch_all_files] fails, and so does [main], before anything is
    written. *)
Theorem invalid_pattern_fails_the_run (self : Path2File)
    (gitignore : option str) (name : str) (e : node) (es : list node)
    (tree_w : node) (w : world) (bad : str) (rest : list str) :
  map_only self = false ->
  ignored_patterns (read_gitignore self gitignore) = bad :: rest ->
  (forall s, re_fullmatch (replace_star bad) s = None) ->
  fetch_all_files re_fullmatch md_convert self gitignore
    (Dir name true (e :: es)) = None
  /\ main re_fullmatch md_convert self gitignore (Dir name true (e :: es))
       tree_w w = None.
Proof.
  intros Hm Hp Hbad.
  assert (Hi : forall path,
             is_ignored re_fullmatch (read_gitignore self gitignore) path
             = None).
  { intros path. unfold is_ignored. rewrite Hp. cbn [any_fullmatch].
    rewrite Hbad. reflexivity. }
  assert (Hf : fetch_all_files re_fullmatch md_convert self gitignore
                 (Dir name true (e :: es)) = None).
  { unfold fetch_all_files. rewrite Hm. rewrite walk_unfold.
    destruct e as [file data | dname listable sub].
    - destruct (filter_directories re_fullmatch
                  (read_gitignore self gitignore) []
                  (dirnames (File file data :: es))) as [kept|];
        [|reflexivity].
      cbn [bind visit_files]. unfold visit_file. rewrite Hi. reflexivity.
    - cbn [dirnames filter is_dir map node_name filter_directories].
      unfold keeps_directory. rewrite Hi. reflexivity. }
  split; [exact Hf|]. unfold main. rewrite Hf. reflexivity.
Qed.

(** *** A folder without subfolders, and a run for the tree only *)

Lemma visit_files_no_patterns_sections (self : Path2File)
    (root_path : list str) (entries : list node) :
  ignored_patterns self = [] ->
  forall st, exists out,
    visit_files re_fullmatch md_convert self root_path entries st
    = Some (fst st ++ sections_of_files md_convert self root_path entries,
            snd st ++ out).
Proof.
  intros Hp. induction entries as [|[file data | name listable sub] rest IH];
    intros st; cbn [visit_files sections_of_files flat_map].
  - exists []. rewrite !app_nil_r. destruct st; reflexivity.
  - unfold visit_file. rewrite is_ignored_no_patterns by exact Hp.
    cbn [bind]. destruct (file_matches_criteria self file).
    + destruct (process_file_outcome self (root_path ++ [file]) data)
        as [[text Ho] | [e Ho]]; rewrite Ho; cbn [fst].
      * rewrite file_section_not_empty. cbn [bind].
        destruct (IH (fst st ++ [file_section (root_path ++ [file])
                                   (suffix (last (root_path ++ [file]) []))
                                   text],
                      snd st ++ [MsgProcessed (root_path ++ [file])
                                   (st_size data)])) as [out ->].
        cbn [fst snd]. eexists. rewrite <- !app_assoc. reflexivity.
      * cbn [bind].
        destruct (IH (fst st, snd st ++ [MsgError (root_path ++ [file]) e]))
          as [out ->].
        cbn [fst snd]. eexists. rewrite <- !app_assoc. reflexivity.
    + cbn [bind]. apply IH.
  - apply IH.
Qed.

Lemma descend_no_directories (self : Path2File) (kept : list str)
    (root_path : list str) (es : list node) (st : fetch_state) :
  Forall (fun e => is_dir e = false) es ->
  descend (walk re_fullmatch md_convert self) kept root_path es st = Some st.
Proof.
  induction 1 as [|e es He _ IH]; [reflexivity|].
  cbn [descend]. rewrite He. cbn [andb bind]. exact IH.
Qed.

(** X6. For a folder that holds files only and a run without patterns (no
    [.gitignore], or one of comments and empty lines), [fetch_all_files]
    returns the sections of the files that pass the extension filter, one
    for each file that can be read, in the order of the listing. *)
Theorem fetch_all_files_flat_folder (self : Path2File)
    (gitignore : option str) (name : str) (entries : list node) :
  map_only self = false ->
  ignored_patterns (read_gitignore self gitignore) = [] ->
  Forall (fun e => is_dir e = false) entries ->
  exists printed,
    fetch_all_files re_fullmatch md_convert self gitignore
      (Dir name true entries)
    = Some (read_gitignore self gitignore,
            (sections_of_files md_convert (read_gitignore self gitignore)
               [] entries, printed)).
Proof.
  intros Hm Hp Hfiles. unfold fetch_all_files. rewrite Hm, walk_unfold.
  assert (Hd : dirnames entries = []).
  { unfold dirnames. induction Hfiles as [|e es He _ IH]; [reflexivity|].
    cbn [filter]. rewrite He. exact IH. }
  rewrite Hd. cbn [filter_directories bind].
  destruct (visit_files_no_patterns_sections
              (read_gitignore self gitignore) [] entries Hp ([], []))
    as [out ->].
  cbn [bind fst snd app]. rewrite descend_no_directories by exact Hfiles.
  cbn [bind]. exists out. reflexivity.
Qed.


(** *** What [_process_file] gives *)

(** X8. [_process_file] hands a file to the converter exactly when the last
    extension of its name is one of [.pdf], [.pptx], [.docx], [.xlsx] as
    written (the test by [endswith] on the suffix is an equality, and a
    name such as [report.PDF] or [x.pdf.txt] is read as bytes); a failed
    conversion and a failed read give no section and one error line with
    the exception, and every section that is given is not empty. *)
Theorem process_file_dispatch (self : Path2File) (root_path : list str)
    (file : str) (data : read_result) :
  let file_path := root_path ++ [file] in
  (existsb (fun ext => endswith (suffix file) ext) supported_extensions = true
   <-> In (suffix file) supported_extensions)
  /\ (In (suffix file) supported_extensions ->
      process_file md_convert self file_path data
      = match md_convert file_path with
        | ConvertOk text_content =>
            (Some (file_section file_path (suffix file) text_content),
             [MsgProcessed file_path (st_size data)])
        | ConvertError e => (None, [MsgError file_path e])
        end)
  /\ (~ In (suffix file) supported_extensions ->
      forall e, data = ReadError e ->
      process_file md_convert self file_path data
      = (None, [MsgError file_path e]))
  /\ (forall section printed,
        process_file md_convert self file_path data = (Some section, printed) ->
        section <> []
        /\ printed = [MsgProcessed file_path (st_size data)])
  /\ (forall printed,
        process_file md_convert self file_path data = (None, printed) ->
        exists e, printed = [MsgError file_path e]).
Proof.
  intros file_path.
  split; [apply supported_extension_exact|]. split; [|split; [|split]].
  - intros Hin. apply supported_extension_exact in Hin.
    unfold process_file. subst file_path. rewrite last_snoc, Hin.
    destruct (md_convert (root_path ++ [file])); reflexivity.
  - intros Hn e ->. unfold process_file. subst file_path. rewrite last_snoc.
    destruct (existsb _ supported_extensions) eqn:He; [|reflexivity].
    exfalso. apply Hn. apply supported_extension_exact. exact He.
  - intros section printed H.
    destruct (process_file_outcome self file_path data)
      as [[text Ho] | [e Ho]]; rewrite Ho in H; [|discriminate].
    injection H as <- <-. split; [|reflexivity].
    intros He. pose proof (file_section_not_empty file_path
                             (suffix (last file_path [])) text) as Hne.
    rewrite He in Hne. discriminate.
  - intros printed H.
    destruct (process_file_outcome self file_path data)
      as [[text Ho] | [e Ho]]; rewrite Ho in H; [discriminate|].
    injection H as <-. exists e. reflexivity.
Qed.

(** X13. A file of ASCII bytes whose extension is no document format comes
    out as it is: the section holds its bytes as characters, one for one;
    and the text decoded from any file has no more characters than the
    file has bytes. *)
Theorem process_file_keeps_ascii (self : Path2File) (root_path : list str)
    (file : str) (content : list byte) :
  ~ In (suffix file) supported_extensions ->
  (Forall (fun b => (Byte.to_N b < 128)%N) content ->
   process_file md_convert self (root_path ++ [file]) (ReadOk content)
   = (Some (file_section (root_path ++ [file]) (suffix file)
              (map Byte.to_N content)),
      [MsgProcessed (root_path ++ [file]) (List.length content)]))
  /\ (exists text,
        process_file md_convert self (root_path ++ [file]) (ReadOk content)
        = (Some (file_section (root_path ++ [file]) (suffix file) text),
           [MsgProcessed (root_path ++ [file]) (List.length content)])
        /\ List.length text <= List.length content).
Proof.
  intros Hn.
  assert (He : existsb (fun ext => endswith (suffix file) ext)
                 supported_extensions = false).
  { destruct (existsb _ supported_extensions) eqn:He; [|reflexivity].
    exfalso. apply Hn, supported_extension_exact, He. }
  split.
  - intros Ha. unfold process_file.
    rewrite last_snoc, He, (utf8_decode_ascii Replace Ha). reflexivity.
  - destruct (utf8_decode_replaces content) as [text [Hr _]].
    exists text. split.
    + unfold process_file. rewrite last_snoc, He, Hr. reflexivity.
    + apply (utf8_decode_length_bounded (n := List.length content));
        [lia | exact Hr].
Qed.

(** *** The whole run *)

(** X14. A run that returns the output path has gone through the three
    steps in turn: the files were fetched, the output file holds the
    cleaned text of the heading, the fenced tree and, when there are
    sections, the second heading and the sections in the order they were
    fetched; the lines of the fetch are printed between the line that
    announces it and the two last lines; and there was a section or the run
    was for the tree only. *)
Theorem main_writes_tree_and_sections (self : Path2File)
    (gitignore : option str) (tree tree_w : node) (w w' : world) :
  main re_fullmatch md_convert self gitignore tree tree_w w = Some (w', true) ->
  exists self' files_data printed,
    fetch_all_files re_fullmatch md_convert self gitignore tree
    = Some (self', (files_data, printed))
    /\ (files_data <> [] \/ map_only self' = true)
    /\ output_file w'
       = Some (collapse_runs
                 (universal_newlines
                    (lit "# Folder Structure" ++ [nl] ++ lit "```" ++ [nl]
                     ++ map_directory_structure self' tree_w ++ [nl]
                     ++ lit "```"
                     ++ match files_data with
                        | [] => []
                        | _ => [nl; nl] ++ lit "# File Contents" ++ [nl]
                               ++ List.concat files_data
                        end)))
    /\ stdout w'
       = stdout w ++ [MsgFetching] ++ printed ++ [MsgCleaning; MsgDone].
Proof.
  unfold main. intros H.
  destruct (fetch_all_files re_fullmatch md_convert self gitignore tree)
    as [[self' [files_data printed]]|]; [|discriminate].
  cbn [bind] in H. exists self', files_data, printed.
  split; [reflexivity|].
  destruct (py_not files_data && negb (map_only self')) eqn:Hc.
  { unfold write_to_file in H. rewrite Hc in H. discriminate. }
  rewrite write_to_file_text in H by exact Hc.
  remember (output_text self' tree_w files_data) as text eqn:Ht.
  destruct (utf8_encodable text); [|discriminate].
  cbn [bind negb] in H. unfold clean_up_text in H.
  cbn [output_file stdout bind] in H. injection H as <-.
  cbn [output_file stdout]. split; [|split].
  - destruct files_data; [|left; discriminate].
    right. destruct (map_only self'); [reflexivity | discriminate].
  - rewrite sub_newlines_collapse, Ht. reflexivity.
  - repeat (rewrite app_nil_r || rewrite <- app_assoc). reflexivity.
Qed.

End Properties.

(** * Concrete runs *)


(** C8 at the example folder, before and after [.gitignore] is read. *)
Lemma tree_never_consults_patterns_witness :
  map_directory_structure example_config example_tree
  = map_directory_structure
      (read_gitignore example_config (Some example_gitignore)) example_tree
  /\ is_ignored simple_fullmatch
       (read_gitignore example_config (Some example_gitignore))
       [lit "z.pyc"] = Some true
  /\ exists part, (part = tee \/ part = corner)
       /\ In (part ++ lit "z.pyc")
            (recursive_list
               (read_gitignore example_config (Some example_gitignore))
               example_tree []).
Proof.
  destruct (tree_never_consults_patterns example_config
              (read_gitignore example_config (Some example_gitignore))
              example_tree eq_refl eq_refl) as [Heq Hin].
  split; [exact Heq|]. split; [reflexivity|].
  apply (Hin (lit "proj") _ (File (lit "z.pyc") (ReadOk [x00])) eq_refl).
  - right. left. reflexivity.
  - reflexivity.
Defined.

(** C9 at a run over the example folder. *)
Lemma cleaned_output_has_no_three_newlines_witness :
  exists w',
    main simple_fullmatch no_convert example_config
      (Some example_gitignore) example_tree example_tree
      {| output_file := None; stdout := [] |} = Some (w', true)
    /\ exists text,
         output_file w' = Some text
         /\ has_three_newlines text = false
         /\ ~ infix_of [nl; nl; nl] text
         /\ (forall content,
               infix_of [nl; nl; nl] content -> ~ infix_of content text).
Proof.
  eexists. split; [vm_compute; reflexivity|].
  apply (cleaned_output_has_no_three_newlines simple_fullmatch no_convert
           example_config (Some example_gitignore) example_tree example_tree
           {| output_file := None; stdout := [] |}).
  vm_compute. reflexivity.
Defined.

(** The run over the example folder: [z.pyc] is skipped with its line,
    [__pycache__/m.pyc] is ignored too and has no line. *)
Example example_run_prints :
  exists self' files_data,
    fetch_all_files simple_fullmatch no_convert example_config
      (Some example_gitignore) example_tree
    = Some (self', (files_data,
                    [MsgProcessed [lit "notes.txt"] 7;
                     MsgSkipping [lit "z.pyc"]]))
    /\ ignored_patterns self' = [lit "*.pyc"].
Proof. eexists. eexists. split; vm_compute; reflexivity. Qed.

(** C2 as it was stated fails: the file [__pycache__/m.pyc] is under the
    root and matches the pattern [*.pyc], but its directory is dropped
    from the walk and nothing is printed about the file. *)
Lemma ignored_file_below_dropped_directory :
  ~ (forall self gitignore tree self' st path,
        map_only self = false ->
        fetch_all_files simple_fullmatch no_convert self gitignore tree
        = Some (self', st) ->
        file_under tree path ->
        is_ignored simple_fullmatch self' path = Some true ->
        In (MsgSkipping path) (snd st)).
Proof.
  intros H.
  specialize (H example_config (Some example_gitignore) example_tree
                _ _ [lit "__pycache__"; lit "m.pyc"] eq_refl eq_refl).
  assert (Hu : file_under example_tree [lit "__pycache__"; lit "m.pyc"]).
  { apply file_below
      with (d := Dir (lit "__pycache__") true
                   [File (lit "m.pyc") (ReadOk [x00])]).
    - right. right. left. reflexivity.
    - reflexivity.
    - apply file_here with (data := ReadOk [x00]). left. reflexivity. }
  specialize (H Hu eq_refl). vm_compute in H.
  destruct H as [H | [H | []]]; discriminate.
Qed.

(** C3 as it was stated fails: in a file that holds a carriage return
    between two letters, the cleanup turns it into a newline, though the
    file has no run of newlines at all. *)
Lemma clean_up_text_changes_carriage_return :
  ~ (forall (w : world) (text : str),
        output_file w = Some text ->
        exists w', clean_up_text w = Some w'
                   /\ output_file w' = Some (collapse_runs text)).
Proof.
  intros H.
  destruct (H {| output_file := Some [97; cr; 98]%N; stdout := [] |}
              [97; cr; 98]%N eq_refl) as [w' [Hc Ho]].
  vm_compute in Hc. injection Hc as <-. vm_compute in Ho. discriminate.
Qed.


(** * Concrete runs for the further properties *)

Lemma fetch_all_files_sections_witness :
  exists self' files_data printed,
    fetch_all_files simple_fullmatch no_convert example_config
      (Some example_gitignore) example_tree
    = Some (self', (files_data, printed))
    /\ forall section,
         In section files_data
         <-> exists path data,
               visits_with simple_fullmatch self' example_tree [] path data
               /\ is_ignored simple_fullmatch self' path = Some false
               /\ file_matches_criteria self' (last path []) = true
               /\ fst (process_file no_convert self' path data)
                  = Some section.
Proof.
  eexists. eexists. eexists. split; [vm_compute; reflexivity|].
  eapply (@fetch_all_files_sections simple_fullmatch no_convert example_config
           _ (Some example_gitignore) example_tree _ _ eq_refl).
  vm_compute. reflexivity.
Defined.

Lemma fetch_all_files_prints_witness :
  exists self' files_data printed,
    fetch_all_files simple_fullmatch no_convert example_config
      (Some example_gitignore) example_tree
    = Some (self', (files_data, printed))
    /\ (forall m, In m printed ->
          message_from simple_fullmatch no_convert self'
            (visits_with simple_fullmatch self' example_tree []) m)
    /\ (forall path,
          In (MsgSkipping path) printed
          <-> exists data,
                visits_with simple_fullmatch self' example_tree [] path data
                /\ is_ignored simple_fullmatch self' path = Some true).
Proof.
  eexists. eexists. eexists. split; [vm_compute; reflexivity|].
  eapply (@fetch_all_files_prints simple_fullmatch no_convert example_config
           _ (Some example_gitignore) example_tree _ _ eq_refl).
  vm_compute. reflexivity.
Defined.

Lemma fetch_all_files_stays_out_of_excluded_witness :
  exists self' files_data printed,
    fetch_all_files simple_fullmatch no_convert example_config
      (Some example_gitignore) example_tree
    = Some (self', (files_data, printed))
    /\ (forall m path,
          In m printed -> message_path m = Some path ->
          reached_through_kept simple_fullmatch self' path)
    /\ (forall section,
          In section files_data ->
          exists path data,
            fst (process_file no_convert self' path data) = Some section
            /\ reached_through_kept simple_fullmatch self' path).
Proof.
  eexists. eexists. eexists. split; [vm_compute; reflexivity|].
  eapply (@fetch_all_files_stays_out_of_excluded simple_fullmatch no_convert
           example_config _ (Some example_gitignore) example_tree _ _ eq_refl).
  vm_compute. reflexivity.
Defined.


Lemma invalid_pattern_fails_the_run_witness :
  fetch_all_files simple_fullmatch no_convert example_config
    (Some invalid_gitignore) flat_tree = None
  /\ main simple_fullmatch no_convert example_config
       (Some invalid_gitignore) flat_tree flat_tree
       {| output_file := None; stdout := [] |} = None.
Proof.
  apply (@invalid_pattern_fails_the_run simple_fullmatch no_convert
           example_config (Some invalid_gitignore) (lit "proj")
           (File (lit "a.py") (ReadOk [x61])) _ flat_tree
           {| output_file := None; stdout := [] |} (lit "[x") [] eq_refl).
  - vm_compute. reflexivity.
  - intros s. reflexivity.
Defined.

Lemma fetch_all_files_flat_folder_witness :
  exists printed,
    fetch_all_files simple_fullmatch no_convert python_config None flat_tree
    = Some (python_config,
            ([file_section [lit "a.py"] (lit ".py") [97]%N;
              file_section [lit "c.py"] (lit ".py") [99]%N], printed)).
Proof.
  destruct (@fetch_all_files_flat_folder simple_fullmatch no_convert
              python_config None (lit "proj")
              [File (lit "a.py") (ReadOk [x61]);
               File (lit "b.txt") (ReadOk [x62]);
               File (lit "c.py") (ReadOk [x63])] eq_refl eq_refl)
    as [printed H].
  - repeat constructor.
  - exists printed. exact H.
Defined.


Lemma tree_independent_of_listing_order_witness :
  map_directory_structure example_config example_tree
  = map_directory_structure example_config example_tree_reordered.
Proof.
  apply (@tree_independent_of_listing_order example_config example_tree
           example_tree_reordered).
  apply same_dir
    with (reordered :=
            [Dir (lit "__pycache__") true [File (lit "m.pyc") (ReadOk [x00])];
             File (lit "z.pyc") (ReadOk [x00]);
             File (lit "notes.txt")
               (ReadOk [x61; x0a; x0a; x0a; x0a; x62; xff])]).
  - repeat constructor; vm_compute; intuition discriminate.
  - eapply Permutation_trans; [apply perm_skip, perm_swap|].
    eapply Permutation_trans; [apply perm_swap|].
    apply perm_skip, perm_swap.
  - repeat constructor.
    apply same_dir with (reordered := [File (lit "m.pyc") (ReadOk [x00])]).
    + repeat constructor. intros [].
    + apply Permutation_refl.
    + repeat constructor.
Defined.

Lemma clean_up_text_keeps_visible_text_witness :
  exists cleaned,
    output_file {| output_file := Some [97; cr; nl; nl; nl; nl; 98]%N;
                   stdout := [MsgFetching] |} = Some [97; cr; nl; nl; nl; nl; 98]%N
    /\ cleaned = [97; nl; nl; 98]%N
    /\ filter visible cleaned = [97; 98]%N.
Proof.
  destruct (@clean_up_text_keeps_visible_text
              {| output_file := Some [97; cr; nl; nl; nl; nl; 98]%N;
                 stdout := [MsgFetching] |}
              {| output_file := Some [97; nl; nl; 98]%N;
                 stdout := [MsgFetching] |}
              [97; cr; nl; nl; nl; nl; 98]%N eq_refl eq_refl)
    as [cleaned [Hc [Hv _]]].
  exists cleaned. split; [reflexivity|].
  injection Hc as <-. split; reflexivity.
Defined.

Lemma process_file_keeps_ascii_witness :
  process_file no_convert example_config [lit "src"; lit "a.py"]
    (ReadOk [x68; x69; x0a])
  = (Some (file_section [lit "src"; lit "a.py"] (lit ".py") [104; 105; 10]%N),
     [MsgProcessed [lit "src"; lit "a.py"] 3]).
Proof.
  refine (proj1 (@process_file_keeps_ascii no_convert example_config
                   [lit "src"] (lit "a.py") [x68; x69; x0a] _) _).
  - vm_compute. intuition discriminate.
  - repeat constructor.
Defined.

Lemma main_writes_tree_and_sections_witness :
  exists w' self' files_data printed,
    main simple_fullmatch no_convert example_config (Some example_gitignore)
      example_tree example_tree {| output_file := None; stdout := [] |}
    = Some (w', true)
    /\ fetch_all_files simple_fullmatch no_convert example_config
         (Some example_gitignore) example_tree
       = Some (self', (files_data, printed))
    /\ stdout w' = [MsgFetching] ++ printed ++ [MsgCleaning; MsgDone].
Proof.
  destruct (@main_writes_tree_and_sections simple_fullmatch no_convert
              example_config (Some example_gitignore) example_tree
              example_tree {| output_file := None; stdout := [] |}
              _ ltac:(vm_compute; reflexivity))
    as [self' [files_data [printed [Hf [_ [_ Hs]]]]]].
  eexists. exists self', files_data, printed.
  split; [vm_compute; reflexivity|]. split; [exact Hf | exact Hs].
Defined.

Lemma clean_up_text_keeps_lines_witness :
  exists cleaned,
    cleaned = [35; 32; 97; nl; nl; 98]%N
    /\ infix_of [35; 32; 97]%N cleaned.
Proof.
  destruct (@clean_up_text_keeps_lines
              {| output_file := Some [35; 32; 97; cr; nl; nl; nl; 98]%N;
                 stdout := [] |}
              {| output_file := Some [35; 32; 97; nl; nl; 98]%N;
                 stdout := [] |}
              [35; 32; 97; cr; nl; nl; nl; 98]%N eq_refl eq_refl)
    as [cleaned [Hc Hl]].
  exists cleaned. injection Hc as <-. split; [reflexivity|].
  apply Hl.
  - intros c [<- | [<- | [<- | []]]]; reflexivity.
  - exists [], [cr; nl; nl; nl; 98]%N. reflexivity.
Defined.
